(** * Dropcomplete: a shallow embedding of [src/dropcomplete.ts]

    The widget is a TypeScript class whose methods mutate [this] and the DOM.
    Each method is embedded as a function from the state before the call to
    the state after it.  Item objects are compared by reference ([===]) in the
    source, so an item is represented by its reference and its fields are read
    through a store.  The caller-supplied callbacks [fetch] and [onSelect] are
    opaque: their invocations are recorded, and the result callback that
    [startFetch] hands to [fetch] is a separate transition that may be taken at
    any later time. *)

From Stdlib Require Import ZArith List String Bool Arith Lia.
Import ListNotations.

Local Open Scope string_scope.
Local Open Scope list_scope.

(** ** Items and the object store *)

(** A reference to an item object; [===] on items is equality of references. *)
Definition ref := nat.

(** [interface DropcompleteItem { label?: string; group?: string }] *)
Record DropcompleteItem := mkItem {
  label : option string;
  group : option string
}.

(** The store of item objects.  A JavaScript reference never dangles, so the
    store is total. *)
Definition Heap := ref -> DropcompleteItem.

(** JavaScript truthiness of an optional string: [undefined] and the empty
    string are falsy. *)
Definition truthy_string (s : option string) : bool :=
  match s with
  | Some EmptyString => false
  | Some _ => true
  | None => false
  end.

(** Truthiness of [T | undefined] where [T] is an object type. *)
Definition truthy_ref (r : option ref) : bool :=
  match r with
  | Some _ => true
  | None => false
  end.

(** [a === b] on values of type [T | undefined]. *)
Definition same_ref (a b : option ref) : bool :=
  match a, b with
  | Some x, Some y => Nat.eqb x y
  | None, None => true
  | _, _ => false
  end.

(** [items[i]]: an index outside the array reads [undefined]; nothing is
    raised. *)
Definition item_at (l : list ref) (i : Z) : option ref :=
  if (i <? 0)%Z then None else nth_error l (Z.to_nat i).

(** ** The DOM, as far as the widget touches it *)

(** A [div] built by the widget or by a renderer: its text, its class list
    and, when [update] attached one, the item its click listener closes over.
    A renderer is taken to build a new node on every call, as the two
    renderers of the class do, and [classList_add] and [add_click] act on
    that new node.  A node that an overriding renderer returned a second
    time would still carry the classes and listeners of the first time, so
    the statements that render twice fix the renderers of the class. *)
Record Element := mkElement {
  textContent : string;
  classList : list string;
  click : option ref
}.

(** [el.classList.add(c)] *)
Definition classList_add (c : string) (el : Element) : Element :=
  if existsb (String.eqb c) (classList el) then el
  else mkElement (textContent el) (classList el ++ [c]) (click el).

(** [el.addEventListener("click", ...)] with the closure over [item]. *)
Definition add_click (item : ref) (el : Element) : Element :=
  mkElement (textContent el) (classList el) (Some item).

(** [this.container]: its child nodes and whether it has a parent node. *)
Record Container := mkContainer {
  children : list Element;
  parentNode : bool
}.

(** The bound input element: the two properties the widget reads.  [value]
    is the text, one character of the string for each unit that
    [value.length] counts; [selectionStart] is a number or [null]. *)
Record InputElement := mkInput {
  value : string;
  selectionStart : option nat
}.

(** ** The widget object *)

(** [class Dropcomplete<T>].  [render] and [renderGroup] are methods of the
    class that a subclass may override; they are carried as fields so that
    [update] can be stated for any renderer.  [keypressCounter] is a
    JavaScript number that only ever counts up from 0 by one; it is an exact
    integer below 2^53 and is embedded as an integer.  A statement about
    single increments at an arbitrary state carries that bound as a
    hypothesis. *)
Record Dropcomplete := mkDropcomplete {
  input : InputElement;
  minLen : Z;
  emptyMsg : option string;
  showOnFocus : option bool;
  preventSubmit : bool;
  render : DropcompleteItem -> option Element;
  renderGroup : string -> option Element;
  container : Container;
  items : list ref;
  inputValue : string;
  selected : option ref;
  keypressCounter : Z
}.

Definition set_input (v : InputElement) (w : Dropcomplete) : Dropcomplete :=
  mkDropcomplete v (minLen w) (emptyMsg w) (showOnFocus w) (preventSubmit w)
    (render w) (renderGroup w) (container w) (items w) (inputValue w)
    (selected w) (keypressCounter w).

Definition set_container (v : Container) (w : Dropcomplete) : Dropcomplete :=
  mkDropcomplete (input w) (minLen w) (emptyMsg w) (showOnFocus w)
    (preventSubmit w) (render w) (renderGroup w) v (items w) (inputValue w)
    (selected w) (keypressCounter w).

Definition set_items (v : list ref) (w : Dropcomplete) : Dropcomplete :=
  mkDropcomplete (input w) (minLen w) (emptyMsg w) (showOnFocus w)
    (preventSubmit w) (render w) (renderGroup w) (container w) v
    (inputValue w) (selected w) (keypressCounter w).

Definition set_inputValue (v : string) (w : Dropcomplete) : Dropcomplete :=
  mkDropcomplete (input w) (minLen w) (emptyMsg w) (showOnFocus w)
    (preventSubmit w) (render w) (renderGroup w) (container w) (items w) v
    (selected w) (keypressCounter w).

Definition set_selected (v : option ref) (w : Dropcomplete) : Dropcomplete :=
  mkDropcomplete (input w) (minLen w) (emptyMsg w) (showOnFocus w)
    (preventSubmit w) (render w) (renderGroup w) (container w) (items w)
    (inputValue w) v (keypressCounter w).

Definition set_keypressCounter (v : Z) (w : Dropcomplete) : Dropcomplete :=
  mkDropcomplete (input w) (minLen w) (emptyMsg w) (showOnFocus w)
    (preventSubmit w) (render w) (renderGroup w) (container w) (items w)
    (inputValue w) (selected w) v.

Definition set_renderers (r : DropcompleteItem -> option Element)
    (g : string -> option Element) (w : Dropcomplete) : Dropcomplete :=
  mkDropcomplete (input w) (minLen w) (emptyMsg w) (showOnFocus w)
    (preventSubmit w) r g (container w) (items w) (inputValue w)
    (selected w) (keypressCounter w).

(** ** Attaching, detaching, clearing *)

(** [detach()]: remove the container from its parent, if it has one. *)
Definition detach (w : Dropcomplete) : Dropcomplete :=
  if parentNode (container w)
  then set_container (mkContainer (children (container w)) false) w
  else w.

(** [attach()]: append the container to [document.body] unless it already has
    a parent. *)
Definition attach (w : Dropcomplete) : Dropcomplete :=
  if negb (parentNode (container w))
  then set_container (mkContainer (children (container w)) true) w
  else w.

(** [containerDisplayed()] *)
Definition containerDisplayed (w : Dropcomplete) : bool :=
  negb (negb (parentNode (container w))).

(** [clear()] *)
Definition clear (w : Dropcomplete) : Dropcomplete :=
  let w := set_keypressCounter (keypressCounter w + 1)%Z w in
  let w := set_items [] w in
  let w := set_inputValue "" w in
  let w := set_selected None w in
  detach w.

(** ** Selection *)

(** The loop of [selectPrev]:
    [for (let i = items.length - 1; i > 0; i--)
       if (selected === items[i] || i === 1) { selected = items[i - 1]; break; }]
    It returns the value of [selected] when the loop is left. *)
Fixpoint selectPrev_loop (its : list ref) (sel : option ref) (i : nat)
    : option ref :=
  match i with
  | O => sel
  | S j =>
      if same_ref sel (item_at its (Z.of_nat (S j))) || Nat.eqb (S j) 1
      then item_at its (Z.of_nat (S j) - 1)
      else selectPrev_loop its sel j
  end.

(** [selectPrev()] *)
Definition selectPrev (w : Dropcomplete) : Dropcomplete :=
  let len := Z.of_nat (List.length (items w)) in
  if (len <? 1)%Z then set_selected None w
  else if same_ref (selected w) (item_at (items w) 0)
  then set_selected (item_at (items w) (len - 1)) w
  else set_selected
         (selectPrev_loop (items w) (selected w) (Z.to_nat (len - 1))) w.

(** The loop of [selectNext]:
    [for (let i = 0; i < items.length - 1; i++)
       if (selected === items[i]) { selected = items[i + 1]; break; }]
    [n] is the number of iterations left, [items.length - 1 - i], so the loop
    test [i < items.length - 1] is [n > 0]. *)
Fixpoint selectNext_loop (its : list ref) (sel : option ref) (n : nat) (i : Z)
    : option ref :=
  match n with
  | O => sel
  | S n' =>
      if same_ref sel (item_at its i)
      then item_at its (i + 1)
      else selectNext_loop its sel n' (i + 1)
  end.

(** [selectNext()].  The first [if] has no [return]: on an empty list the
    method goes on to the second test with [selected] already [undefined]. *)
Definition selectNext (w : Dropcomplete) : Dropcomplete :=
  let len := Z.of_nat (List.length (items w)) in
  let w := if (len <? 1)%Z then set_selected None w else w in
  if negb (truthy_ref (selected w))
     || same_ref (selected w) (item_at (items w) (len - 1))
  then set_selected (item_at (items w) 0) w
  else set_selected
         (selectNext_loop (items w) (selected w) (Z.to_nat (len - 1)) 0) w.

(** ** Rendering *)

(** [s || ""] *)
Definition or_empty (s : option string) : string :=
  match s with
  | Some t => t
  | None => ""
  end.

(** The default [render(item)]: a fresh [div] whose text is
    [item.label || ""]. *)
Definition default_render (item : DropcompleteItem) : option Element :=
  Some (mkElement (or_empty (label item)) [] None).

(** The default [renderGroup(groupName)]: a fresh [div] whose text is the
    group name. *)
Definition default_renderGroup (groupName : string) : option Element :=
  Some (mkElement groupName [] None).

(** [container.appendChild(el)] *)
Definition appendChild (el : Element) (w : Dropcomplete) : Dropcomplete :=
  set_container
    (mkContainer (children (container w) ++ [el]) (parentNode (container w))) w.

Section WithHeap.

Variable heap : Heap.

(** The [for (const item of this.items)] loop of [update()], returning the
    nodes appended to the document fragment, in order.  [prevGroup] is the
    loop's local variable of that name. *)
Fixpoint update_loop (w : Dropcomplete) (its : list ref) (prevGroup : string)
    : list Element :=
  match its with
  | [] => []
  | item :: rest =>
      let g := group (heap item) in
      let enter := truthy_string g && negb (String.eqb (or_empty g) prevGroup) in
      let header :=
        if enter then
          match renderGroup w (or_empty g) with
          | Some groupDiv => [classList_add "group" groupDiv]
          | None => []
          end
        else [] in
      let prevGroup := if enter then or_empty g else prevGroup in
      let line :=
        match render w (heap item) with
        | Some div =>
            let div := add_click item div in
            [if same_ref (Some item) (selected w)
             then classList_add "selected" div else div]
        | None => []
        end in
      header ++ line ++ update_loop w rest prevGroup
  end.

(** [update()].  Its last two calls, [updatePosition()] and [updateScroll()],
    write only the container's [style] and [scrollTop] from geometry supplied
    by the layout engine; those properties are not part of [Container], so the
    two calls leave the embedded state as it is. *)
Definition update (w : Dropcomplete) : Dropcomplete :=
  let w := set_container (mkContainer [] (parentNode (container w))) w in
  let fragment := update_loop w (items w) "#9?$" in
  let w :=
    set_container
      (mkContainer (children (container w) ++ fragment)
         (parentNode (container w))) w in
  if (Z.of_nat (List.length (items w)) <? 1)%Z then
    if truthy_string (emptyMsg w) then
      let empty := mkElement (or_empty (emptyMsg w)) ["empty"] None in
      attach (appendChild empty w)
    else clear w
  else attach w.

(** [updateIfDisplayed()] *)
Definition updateIfDisplayed (w : Dropcomplete) : Dropcomplete :=
  if containerDisplayed w then update w else w.

End WithHeap.

(** ** The widget in its environment *)

(** One invocation of the caller's [fetch]: its arguments, and the
    [savedKeypressCounter] that the [update] closure passed to it captured. *)
Record FetchCall := mkFetchCall {
  text : string;
  savedKeypressCounter : Z;
  isFocus : bool;
  cursorPos : nat
}.

(** The six event handler methods of the class. *)
Inductive Handler :=
| HKeydown | HKeyup | HBlur | HFocus | HResize | HScroll.

(** A function object handed to [addEventListener] or [removeEventListener]:
    either one of the arrow functions the constructor creates, which calls the
    named method on the widget, or the method itself as read from
    [this.<method>].  They are different objects. *)
Inductive Callback :=
| Arrow (h : Handler)
| Method (h : Handler).

Inductive EventTarget := TInput | TWindow | TDocument.

(** An entry of an event target's listener list.  The DOM identifies a
    listener by its type, its callback object and its capture flag. *)
Record Listener := mkListener {
  l_target : EventTarget;
  l_type : string;
  l_callback : Callback;
  l_capture : bool
}.

Definition Handler_eqb (a b : Handler) : bool :=
  match a, b with
  | HKeydown, HKeydown | HKeyup, HKeyup | HBlur, HBlur
  | HFocus, HFocus | HResize, HResize | HScroll, HScroll => true
  | _, _ => false
  end.

Definition Callback_eqb (a b : Callback) : bool :=
  match a, b with
  | Arrow x, Arrow y => Handler_eqb x y
  | Method x, Method y => Handler_eqb x y
  | _, _ => false
  end.

Definition EventTarget_eqb (a b : EventTarget) : bool :=
  match a, b with
  | TInput, TInput | TWindow, TWindow | TDocument, TDocument => true
  | _, _ => false
  end.

Definition Listener_eqb (a b : Listener) : bool :=
  EventTarget_eqb (l_target a) (l_target b)
  && String.eqb (l_type a) (l_type b)
  && Callback_eqb (l_callback a) (l_callback b)
  && Bool.eqb (l_capture a) (l_capture b).

(** [target.addEventListener(type, callback, capture)]: appended unless an
    identical listener is already there. *)
Definition addEventListener (l : Listener) (ls : list Listener)
    : list Listener :=
  if existsb (Listener_eqb l) ls then ls else ls ++ [l].

(** [target.removeEventListener(type, callback, capture)]: removes the
    listener with this type, callback object and capture flag, if any. *)
Definition removeEventListener (l : Listener) (ls : list Listener)
    : list Listener :=
  filter (fun x => negb (Listener_eqb l x)) ls.

(** The widget together with what it acts on: the listener lists of the input,
    the window and the document, the invocations of [fetch] and [onSelect]
    made so far (oldest first), and the number of [setTimeout] callbacks of
    [blurEventHandler] not yet run. *)
Record World := mkWorld {
  self : Dropcomplete;
  listeners : list Listener;
  fetchCalls : list FetchCall;
  onSelectCalls : list ref;
  blurTimers : nat
}.

Definition on_self (f : Dropcomplete -> Dropcomplete) (s : World) : World :=
  mkWorld (f (self s)) (listeners s) (fetchCalls s) (onSelectCalls s)
    (blurTimers s).

Definition set_listeners (ls : list Listener) (s : World) : World :=
  mkWorld (self s) ls (fetchCalls s) (onSelectCalls s) (blurTimers s).

(** [this.fetch(text, update, isFocus, cursorPos)] *)
Definition call_fetch (c : FetchCall) (s : World) : World :=
  mkWorld (self s) (listeners s) (fetchCalls s ++ [c]) (onSelectCalls s)
    (blurTimers s).

(** [this.onSelect(item, this.input)] *)
Definition call_onSelect (item : ref) (s : World) : World :=
  mkWorld (self s) (listeners s) (fetchCalls s) (onSelectCalls s ++ [item])
    (blurTimers s).

Definition set_blurTimers (n : nat) (s : World) : World :=
  mkWorld (self s) (listeners s) (fetchCalls s) (onSelectCalls s) n.

(** ** Fetching *)

(** [startFetch(isFocus)] *)
Definition startFetch (isFocus : bool) (s : World) : World :=
  let s :=
    on_self (fun w => set_keypressCounter (keypressCounter w + 1)%Z w) s in
  let savedKeypressCounter := keypressCounter (self s) in
  let inputText := value (input (self s)) in
  let cursorPos :=
    match selectionStart (input (self s)) with
    | Some n => n
    | None => 0
    end in
  if (Z.of_nat (String.length inputText) >=? minLen (self s))%Z || isFocus
  then call_fetch (mkFetchCall inputText savedKeypressCounter isFocus cursorPos) s
  else on_self clear s.

(** The closure [(items) => { ... }] that [startFetch] passes to [fetch], for
    the call [c]; [c] carries the captured [savedKeypressCounter] and
    [inputText].  The argument is [T[] | false]: [None] is [false], and every
    array, the empty one included, is truthy.  The two operands of the
    source's [&&] only read, so the order in which they are tested does not
    show. *)
Definition fetch_update (heap : Heap) (c : FetchCall)
    (items : option (list ref)) (s : World) : World :=
  match items with
  | Some its =>
      if (keypressCounter (self s) =? savedKeypressCounter c)%Z then
        on_self
          (fun w =>
             let w := set_items its w in
             let w := set_inputValue (text c) w in
             let w :=
               set_selected
                 (if (Z.of_nat (List.length its) <? 1)%Z then None
                  else item_at its 0) w in
             update heap w) s
      else s
  | None => s
  end.

(** ** Event handlers *)

(** The event object, as far as the handlers read it: [event.key] of a
    keyboard event and whether [event.target] is the widget's container.  The
    handlers' calls to [preventDefault] and [stopPropagation] act on the event
    only and are not recorded. *)
Record DomEvent := mkEvent {
  key : string;
  targetIsContainer : bool
}.

(** The click listener that [update()] puts on the element of [item]. *)
Definition click_listener (item : ref) (s : World) : World :=
  on_self clear (call_onSelect item s).

Definition ignores : list string :=
  ["ArrowUp"; "Enter"; "Escape"; "ArrowRight"; "ArrowLeft"; "Shift";
   "Control"; "Alt"; "CapsLock"; "Meta"; "Tab"].

(** [keyupEventHandler(event)] *)
Definition keyupEventHandler (event : DomEvent) (s : World) : World :=
  if existsb (fun ignore => String.eqb ignore (key event)) ignores then s
  else if String.eqb (key event) "Fn" then s
  else if String.eqb (key event) "ArrowDown" && containerDisplayed (self s)
  then s
  else startFetch false s.

(** [keydownEventHandler(event)] *)
Definition keydownEventHandler (heap : Heap) (event : DomEvent) (s : World)
    : World :=
  let key := key event in
  if String.eqb key "ArrowUp" || String.eqb key "ArrowDown"
     || String.eqb key "Escape"
  then
    if String.eqb key "Escape" then on_self clear s
    else if negb (containerDisplayed (self s))
            || (Z.of_nat (List.length (items (self s))) <? 1)%Z
    then s
    else
      let s :=
        if String.eqb key "ArrowUp" then on_self selectPrev s
        else on_self selectNext s in
      on_self (update heap) s
  else if String.eqb key "Enter" then
    match selected (self s) with
    | Some item => on_self clear (call_onSelect item s)
    | None => s
    end
  else s.

(** [focusEventHandler()] *)
Definition focusEventHandler (s : World) : World :=
  match showOnFocus (self s) with
  | Some true => startFetch true s
  | _ => s
  end.

(** [blurEventHandler()]: only schedules its callback. *)
Definition blurEventHandler (s : World) : World :=
  set_blurTimers (S (blurTimers s)) s.

(** The callback that [blurEventHandler] gave to [setTimeout], when it runs;
    [activeIsInput] is [document.activeElement === this.input] at that time. *)
Definition blur_timeout (activeIsInput : bool) (s : World) : World :=
  match blurTimers s with
  | O => s
  | S n =>
      let s := set_blurTimers n s in
      if negb activeIsInput then on_self clear s else s
  end.

(** [resizeEventHandler()] *)
Definition resizeEventHandler (heap : Heap) (s : World) : World :=
  on_self (updateIfDisplayed heap) s.

(** [scrollEventHandler(event)] *)
Definition scrollEventHandler (heap : Heap) (event : DomEvent) (s : World)
    : World :=
  if negb (targetIsContainer event) then on_self (updateIfDisplayed heap) s
  else s.

(** ** Construction and destruction *)

Module Settings.

(** [interface DropcompleteSettings<T>], without the two callbacks. *)
Record t := mk {
  input : InputElement;
  minLength : option Z;
  emptyMsg : option string;
  showOnFocus : option bool;
  preventSubmit : option bool
}.

End Settings.

(** [new Dropcomplete(settings)].  The container's own class and style are not
    part of [Container]. *)
Definition construct (settings : Settings.t) : World :=
  let w :=
    mkDropcomplete
      (Settings.input settings)
      (match Settings.minLength settings with Some n => n | None => 2%Z end)
      (Settings.emptyMsg settings)
      (Settings.showOnFocus settings)
      (match Settings.preventSubmit settings with
       | Some b => b || false
       | None => false
       end)
      default_render default_renderGroup
      (mkContainer [] false) [] "" None 0%Z in
  let ls := [] in
  let ls := addEventListener (mkListener TInput "keydown" (Arrow HKeydown) false) ls in
  let ls := addEventListener (mkListener TInput "keyup" (Arrow HKeyup) false) ls in
  let ls := addEventListener (mkListener TInput "blur" (Arrow HBlur) false) ls in
  let ls := addEventListener (mkListener TInput "focus" (Arrow HFocus) false) ls in
  let ls := addEventListener (mkListener TWindow "resize" (Arrow HResize) false) ls in
  let ls := addEventListener (mkListener TDocument "scroll" (Arrow HScroll) true) ls in
  mkWorld w ls [] [] 0.

(** [destroy()] *)
Definition destroy (s : World) : World :=
  let ls := listeners s in
  let ls := removeEventListener (mkListener TInput "keydown" (Method HKeydown) false) ls in
  let ls := removeEventListener (mkListener TInput "keyup" (Method HKeyup) false) ls in
  let ls := removeEventListener (mkListener TInput "focus" (Method HFocus) false) ls in
  let ls := removeEventListener (mkListener TInput "blur" (Method HBlur) false) ls in
  let ls := removeEventListener (mkListener TWindow "resize" (Method HResize) false) ls in
  let ls := removeEventListener (mkListener TDocument "scroll" (Method HScroll) true) ls in
  on_self clear (set_listeners ls s).

(** ** Dispatch and runs *)

(** Invoking a registered callback.  An arrow function of the constructor
    calls its method on the widget.  A method object invoked as a listener
    would run with [this] bound to the event target, not to the widget, so it
    cannot change the widget. *)
Definition run_callback (heap : Heap) (cb : Callback) (event : DomEvent)
    (s : World) : World :=
  match cb with
  | Arrow HKeydown => keydownEventHandler heap event s
  | Arrow HKeyup => keyupEventHandler event s
  | Arrow HBlur => blurEventHandler s
  | Arrow HFocus => focusEventHandler s
  | Arrow HResize => resizeEventHandler heap s
  | Arrow HScroll => scrollEventHandler heap event s
  | Method _ => s
  end.

(** The browser dispatches an event of type [type] at [target]: every
    listener registered there for that type is invoked, in order. *)
Definition dispatch (heap : Heap) (target : EventTarget) (type : string)
    (event : DomEvent) (s : World) : World :=
  fold_left
    (fun s l =>
       if EventTarget_eqb (l_target l) target && String.eqb (l_type l) type
       then run_callback heap (l_callback l) event s
       else s)
    (listeners s) s.

(** What can happen to a constructed widget. *)
Inductive Event :=
| Dispatch (target : EventTarget) (type : string) (event : DomEvent)
| SetInput (i : InputElement)
| Timeout (activeIsInput : bool)
| FetchResult (n : nat) (items : option (list ref))
| Click (n : nat)
| Destroy.

(** One step.  [SetInput] is the user editing the input; [FetchResult n r] is
    the caller invoking, with [r], the result callback of the [n]-th [fetch]
    invocation; [Click n] is a click on the [n]-th child of the container. *)
Definition step (heap : Heap) (s : World) (e : Event) : World :=
  match e with
  | Dispatch target type event => dispatch heap target type event s
  | SetInput i => on_self (set_input i) s
  | Timeout a => blur_timeout a s
  | FetchResult n r =>
      match nth_error (fetchCalls s) n with
      | Some c => fetch_update heap c r s
      | None => s
      end
  | Click n =>
      match nth_error (children (container (self s))) n with
      | Some el =>
          match click el with
          | Some item => click_listener item s
          | None => s
          end
      | None => s
      end
  | Destroy => destroy s
  end.

Definition run (heap : Heap) (s : World) (es : list Event) : World :=
  fold_left (step heap) es s.

(** ** Reading the overlay *)

(** An element of the overlay as a user meets it: the element of an item,
    which carries that item's click listener, or a plain element with its
    text (a group header or the empty message). *)
Definition view (el : Element) : ref + string :=
  match click el with
  | Some item => inl item
  | None => inr (textContent el)
  end.

(** Whether [update] put a click listener on the element. *)
Definition clickable (el : Element) : bool :=
  match click el with
  | Some _ => true
  | None => false
  end.

Definition option_string_eqb (a b : option string) : bool :=
  match a, b with
  | Some x, Some y => String.eqb x y
  | None, None => true
  | _, _ => false
  end.

(** The grouping rule in the words of the specification, to be compared with
    [update_loop]: going through the items in order, a group header is emitted
    before an item whenever the item's group differs from the previous item's
    group.  [prev] is the previous item's group; before the first item it is
    the value [None], "no group yet", which is distinct from every group
    name. *)
Fixpoint spec_grouping (heap : Heap) (its : list ref)
    (prev : option (option string)) : list (ref + string) :=
  match its with
  | [] => []
  | item :: rest =>
      let g := group (heap item) in
      let differs :=
        match prev with
        | Some p => negb (option_string_eqb g p)
        | None => true
        end in
      (if differs then [inr (or_empty g)] else [])
      ++ inl item :: spec_grouping heap rest (Some g)
  end.

(** ** Invariants *)

(** [selected], if present, is one of the objects in [items]. *)
Definition selected_in_items (w : Dropcomplete) : Prop :=
  match selected w with
  | Some x => In x (items w)
  | None => True
  end.

(** No [fetch] invocation captured a counter value above the current one, and
    every invocation but the most recent captured a value strictly below
    it. *)
Definition epochs_bounded (s : World) : Prop :=
  forall n c,
    nth_error (fetchCalls s) n = Some c ->
    (savedKeypressCounter c <= keypressCounter (self s))%Z
    /\ (S n < List.length (fetchCalls s) ->
        (savedKeypressCounter c < keypressCounter (self s))%Z).

(** A transition that invokes no [fetch] and does not lower the counter. *)
Definition quiet (s s' : World) : Prop :=
  fetchCalls s' = fetchCalls s
  /\ (keypressCounter (self s) <= keypressCounter (self s'))%Z.

(** ** Sample inputs *)

(** Settings that leave every optional field out, on an empty input. *)
Definition sample_settings : Settings.t :=
  Settings.mk (mkInput "" None) None None None None.

(** A freshly constructed widget whose [items] and [selected] were then set. *)
Definition sample_widget (its : list ref) (sel : option ref) : Dropcomplete :=
  set_selected sel (set_items its (self (construct sample_settings))).

(** The three items of the grouping example: [{label:"a",group:"G1"}],
    [{label:"b",group:"G1"}] and [{label:"c",group:"G2"}] at the references
    1, 2 and 3. *)
Definition sample_heap : Heap :=
  fun r =>
    match r with
    | 1 => mkItem (Some "a") (Some "G1")
    | 2 => mkItem (Some "b") (Some "G1")
    | _ => mkItem (Some "c") (Some "G2")
    end.

(** The item [{label:"a",group:"G1"}] at the reference 1, and the item
    [{label:"b"}], which has no group, at every other reference. *)
Definition gap_heap : Heap :=
  fun r =>
    match r with
    | 1 => mkItem (Some "a") (Some "G1")
    | _ => mkItem (Some "b") None
    end.

(** ** Observations for the further properties *)

(** [el.classList.contains(c)] *)
Definition has_class (c : string) (el : Element) : bool :=
  existsb (String.eqb c) (classList el).

(** The child nodes that [update] builds from the widget's [items],
    [selected] and [emptyMsg]: the output of its loop, followed by the empty
    message when there are no items and [emptyMsg] is truthy. *)
Definition rendering (heap : Heap) (w : Dropcomplete) : list Element :=
  update_loop heap w (items w) "#9?$"
  ++ (if (Z.of_nat (List.length (items w)) <? 1)%Z
         && truthy_string (emptyMsg w)
      then [mkElement (or_empty (emptyMsg w)) ["empty"] None]
      else []).

(** The overlay agrees with the widget's fields.  While the container is
    attached there is something to show, items or the empty message, and the
    container holds the rendering of the current fields.  While it is
    detached the widget holds no items, no input value and no selection. *)
Definition overlay_consistent (heap : Heap) (w : Dropcomplete) : Prop :=
  if parentNode (container w)
  then (items w <> [] \/ truthy_string (emptyMsg w) = true)
       /\ children (container w) = rendering heap w
  else items w = [] /\ inputValue w = "" /\ selected w = None.

(** Whenever there are items, one of them is selected. *)
Definition selection_present (w : Dropcomplete) : Prop :=
  items w <> [] -> selected w <> None.

(** The widget uses the two renderers of the class itself. *)
Definition default_renderers (w : Dropcomplete) : Prop :=
  render w = default_render /\ renderGroup w = default_renderGroup.

(** The six listeners that the constructor registers. *)
Definition constructor_listeners : list Listener :=
  [mkListener TInput "keydown" (Arrow HKeydown) false;
   mkListener TInput "keyup" (Arrow HKeyup) false;
   mkListener TInput "blur" (Arrow HBlur) false;
   mkListener TInput "focus" (Arrow HFocus) false;
   mkListener TWindow "resize" (Arrow HResize) false;
   mkListener TDocument "scroll" (Arrow HScroll) true].

(** Pressing and releasing a key while the input has the focus: the browser
    dispatches [keydown] and then [keyup] at the input. *)
Definition press (k : string) : list Event :=
  [Dispatch TInput "keydown" (mkEvent k false);
   Dispatch TInput "keyup" (mkEvent k false)].

(** * Properties *)

(** ** Reference equality and indexing *)

Lemma same_ref_true_iff (a b : option ref) : same_ref a b = true <-> a = b.
Proof.
  destruct a as [x|], b as [y|]; simpl; split; intro H;
    try discriminate; try reflexivity.
  - apply Nat.eqb_eq in H. now subst.
  - injection H as ->. apply Nat.eqb_refl.
Qed.

Lemma same_ref_false_iff (a b : option ref) : same_ref a b = false <-> a <> b.
Proof.
  rewrite <- same_ref_true_iff. destruct (same_ref a b); split; intro H;
    try reflexivity; try discriminate; try congruence.
Qed.

Lemma same_ref_refl (a : option ref) : same_ref a a = true.
Proof. now apply same_ref_true_iff. Qed.

Lemma item_at_of_nat (l : list ref) (i : nat) :
  item_at l (Z.of_nat i) = nth_error l i.
Proof.
  unfold item_at. destruct (Z.ltb_spec (Z.of_nat i) 0); [lia|].
  now rewrite Nat2Z.id.
Qed.

Lemma item_at_negative (l : list ref) (i : Z) : (i < 0)%Z -> item_at l i = None.
Proof.
  intro H. unfold item_at. destruct (Z.ltb_spec i 0); [reflexivity | lia].
Qed.

Lemma item_at_In (l : list ref) (i : Z) (x : ref) :
  item_at l i = Some x -> In x l.
Proof.
  unfold item_at. destruct (i <? 0)%Z; [discriminate|]. apply nth_error_In.
Qed.

Lemma item_at_nil (i : Z) : item_at [] i = None.
Proof.
  unfold item_at. destruct (i <? 0)%Z; [reflexivity|].
  now destruct (Z.to_nat i).
Qed.

(** ** The two navigation loops *)

(** Leaving the loop of [selectPrev] at the last index that holds the
    selection: the loop starts at [k], the selection [x] is at [i >= 1] and at
    no index in [(i, k]], so the loop stops at [i] and selects [i - 1]. *)
Lemma selectPrev_loop_found (its : list ref) (x : ref) (i k : nat) :
  1 <= i -> i <= k ->
  nth_error its i = Some x ->
  (forall j, i < j -> j <= k -> nth_error its j <> Some x) ->
  selectPrev_loop its (Some x) k = nth_error its (i - 1).
Proof.
  intros Hi Hik Hx Hlast. induction k as [|k IH]; [lia|].
  cbn [selectPrev_loop]. rewrite item_at_of_nat.
  destruct (Nat.eq_dec (S k) i) as [E|E].
  - rewrite E, Hx, same_ref_refl. cbn [orb].
    replace (Z.of_nat i - 1)%Z with (Z.of_nat (i - 1)) by lia.
    apply item_at_of_nat.
  - assert (Hne : same_ref (Some x) (nth_error its (S k)) = false).
    { apply same_ref_false_iff. intro C. symmetry in C.
      apply (Hlast (S k)); [lia | lia | exact C]. }
    rewrite Hne. cbn [orb].
    destruct (Nat.eqb_spec (S k) 1) as [E1|E1]; [lia|].
    apply IH; [lia|]. intros j Hj Hjk. apply Hlast; lia.
Qed.

(** Running the loop of [selectPrev] to its end: the selection is at no index
    in [[1, k]], so the test [i === 1] ends the loop and selects index 0. *)
Lemma selectPrev_loop_fallback (its : list ref) (sel : option ref) (k : nat) :
  1 <= k ->
  (forall j, 1 <= j -> j <= k -> nth_error its j <> sel) ->
  selectPrev_loop its sel k = nth_error its 0.
Proof.
  intros Hk Hno. induction k as [|k IH]; [lia|].
  cbn [selectPrev_loop]. rewrite item_at_of_nat.
  assert (Hne : same_ref sel (nth_error its (S k)) = false).
  { apply same_ref_false_iff. intro C. symmetry in C.
    apply (Hno (S k)); [lia | lia | exact C]. }
  rewrite Hne. cbn [orb].
  destruct (Nat.eqb_spec (S k) 1) as [E1|E1].
  - replace (Z.of_nat (S k) - 1)%Z with (Z.of_nat 0) by lia.
    apply item_at_of_nat.
  - apply IH; [lia|]. intros j Hj Hjk. apply Hno; lia.
Qed.

(** The loop of [selectNext] stops at the first index that holds the
    selection and selects the next index. *)
Lemma selectNext_loop_found (its : list ref) (x : ref) (i n j : nat) :
  j <= i -> i < j + n ->
  nth_error its i = Some x ->
  (forall m, j <= m -> m < i -> nth_error its m <> Some x) ->
  selectNext_loop its (Some x) n (Z.of_nat j) = nth_error its (S i).
Proof.
  revert j. induction n as [|n IH]; intros j Hji Hin Hx Hfirst; [lia|].
  cbn [selectNext_loop]. rewrite item_at_of_nat.
  destruct (Nat.eq_dec j i) as [E|E].
  - rewrite E, Hx, same_ref_refl.
    replace (Z.of_nat i + 1)%Z with (Z.of_nat (S i)) by lia.
    apply item_at_of_nat.
  - assert (Hne : same_ref (Some x) (nth_error its j) = false).
    { apply same_ref_false_iff. intro C. symmetry in C.
      apply (Hfirst j); [lia | lia | exact C]. }
    rewrite Hne.
    replace (Z.of_nat j + 1)%Z with (Z.of_nat (S j)) by lia.
    apply IH; [lia | lia | exact Hx |].
    intros m Hm Hmi. apply Hfirst; lia.
Qed.

(** Whatever the loops do, they leave [selected] as it was or set it to an
    element of the array. *)
Lemma selectPrev_loop_cases (its : list ref) (sel : option ref) (k : nat) :
  selectPrev_loop its sel k = sel
  \/ exists i, selectPrev_loop its sel k = nth_error its i /\ i < k.
Proof.
  induction k as [|k IH]; [now left|].
  cbn [selectPrev_loop].
  destruct (same_ref sel (item_at its (Z.of_nat (S k))) || Nat.eqb (S k) 1).
  - right. exists k. split; [|lia].
    replace (Z.of_nat (S k) - 1)%Z with (Z.of_nat k) by lia.
    apply item_at_of_nat.
  - destruct IH as [IH|[i [IH Hi]]]; [now left|].
    right. exists i. split; [exact IH | lia].
Qed.

Lemma selectNext_loop_cases (its : list ref) (sel : option ref) (n : nat)
    (i : Z) :
  selectNext_loop its sel n i = sel
  \/ exists j, selectNext_loop its sel n i = item_at its j.
Proof.
  revert i. induction n as [|n IH]; intro i; [now left|].
  cbn [selectNext_loop].
  destruct (same_ref sel (item_at its i)).
  - right. now exists (i + 1)%Z.
  - apply IH.
Qed.

(** ** Selection *)

Lemma set_selected_same (w : Dropcomplete) : set_selected (selected w) w = w.
Proof. now destruct w. Qed.

Lemma selectPrev_frame (w : Dropcomplete) :
  selectPrev w = set_selected (selected (selectPrev w)) w.
Proof.
  unfold selectPrev.
  destruct (Z.of_nat (List.length (items w)) <? 1)%Z; [reflexivity|].
  destruct (same_ref (selected w) (item_at (items w) 0)); reflexivity.
Qed.

Lemma selectNext_frame (w : Dropcomplete) :
  selectNext w = set_selected (selected (selectNext w)) w.
Proof.
  unfold selectNext.
  destruct (Z.of_nat (List.length (items w)) <? 1)%Z; cbn [selected set_selected items];
    match goal with |- context [if ?c then _ else _] => destruct c end;
    now destruct w.
Qed.

Lemma length_lt_1 (its : list ref) :
  (Z.of_nat (List.length its) <? 1)%Z = true <-> its = [].
Proof.
  destruct its; simpl List.length; split; intro H;
    try reflexivity; try discriminate.
  apply Z.ltb_lt in H. lia.
Qed.

Lemma length_ge_1 (its : list ref) :
  (Z.of_nat (List.length its) <? 1)%Z = false <-> its <> [].
Proof.
  rewrite <- length_lt_1.
  destruct (Z.of_nat (List.length its) <? 1)%Z; split; congruence.
Qed.

(** [selectPrev] when the selection is the first item. *)
Lemma selectPrev_first (w : Dropcomplete) :
  items w <> [] ->
  selected w = nth_error (items w) 0 ->
  selected (selectPrev w) = nth_error (items w) (List.length (items w) - 1).
Proof.
  intros Hne Hsel. unfold selectPrev.
  apply length_ge_1 in Hne as Hlen. rewrite Hlen.
  change 0%Z with (Z.of_nat 0). rewrite item_at_of_nat, Hsel, same_ref_refl.
  cbn [selected set_selected].
  destruct (items w) as [|a l]; [congruence|].
  replace (Z.of_nat (List.length (a :: l)) - 1)%Z
    with (Z.of_nat (List.length (a :: l) - 1)) by (simpl List.length; lia).
  apply item_at_of_nat.
Qed.

(** [selectPrev] when the selection is in the list and is not the first
    item; [i] is the last index holding it. *)
Lemma selectPrev_inner (w : Dropcomplete) (x : ref) (i : nat) :
  selected w = Some x ->
  nth_error (items w) 0 <> Some x ->
  nth_error (items w) i = Some x ->
  (forall j, i < j -> nth_error (items w) j <> Some x) ->
  selected (selectPrev w) = nth_error (items w) (i - 1).
Proof.
  intros Hsel Hfirst Hi Hlast.
  assert (Hi1 : 1 <= i) by (destruct i; [congruence | lia]).
  assert (Hilen : i < List.length (items w))
    by (apply nth_error_Some; congruence).
  unfold selectPrev.
  assert (Hlen : (Z.of_nat (List.length (items w)) <? 1)%Z = false)
    by (apply Z.ltb_ge; lia).
  rewrite Hlen. change 0%Z with (Z.of_nat 0). rewrite item_at_of_nat, Hsel.
  assert (Hne : same_ref (Some x) (nth_error (items w) 0) = false)
    by (apply same_ref_false_iff; congruence).
  rewrite Hne. cbn [selected set_selected].
  apply selectPrev_loop_found; try assumption; [lia|].
  intros j Hj _. now apply Hlast.
Qed.

(** [selectPrev] when nothing is selected and there are at least two items:
    the test [i === 1] selects the first item. *)
Lemma selectPrev_none (w : Dropcomplete) :
  2 <= List.length (items w) ->
  selected w = None ->
  selected (selectPrev w) = nth_error (items w) 0.
Proof.
  intros Hlen2 Hsel. unfold selectPrev.
  assert (Hlen : (Z.of_nat (List.length (items w)) <? 1)%Z = false)
    by (apply Z.ltb_ge; lia).
  rewrite Hlen. change 0%Z with (Z.of_nat 0). rewrite item_at_of_nat, Hsel.
  assert (Hne : same_ref None (nth_error (items w) 0) = false).
  { apply same_ref_false_iff. intro C. symmetry in C.
    apply nth_error_None in C. lia. }
  rewrite Hne. cbn [selected set_selected].
  apply selectPrev_loop_fallback; [lia|].
  intros j Hj1 Hjk C. apply nth_error_None in C. lia.
Qed.

Lemma selectPrev_empty (w : Dropcomplete) :
  items w = [] -> selectPrev w = set_selected None w.
Proof.
  intro H. unfold selectPrev. apply length_lt_1 in H. now rewrite H.
Qed.

Lemma selectNext_empty (w : Dropcomplete) :
  items w = [] -> selectNext w = set_selected None w.
Proof.
  intro H. unfold selectNext. apply length_lt_1 in H as Hlen. rewrite Hlen.
  cbn [selected set_selected items truthy_ref negb orb].
  rewrite H, item_at_nil. now destruct w.
Qed.

(** [selectNext] when the selection is the last item, or there is none. *)
Lemma selectNext_wrap (w : Dropcomplete) :
  items w <> [] ->
  selected w = None
  \/ selected w = nth_error (items w) (List.length (items w) - 1) ->
  selected (selectNext w) = nth_error (items w) 0.
Proof.
  intros Hne Hsel. unfold selectNext.
  apply length_ge_1 in Hne as Hlen. rewrite Hlen.
  assert (Hc : negb (truthy_ref (selected w))
               || same_ref (selected w)
                    (item_at (items w) (Z.of_nat (List.length (items w)) - 1))
               = true).
  { destruct Hsel as [Hs|Hs].
    - now rewrite Hs.
    - apply orb_true_iff. right. apply same_ref_true_iff. rewrite Hs.
      destruct (items w) as [|a l]; [congruence|].
      replace (Z.of_nat (List.length (a :: l)) - 1)%Z
        with (Z.of_nat (List.length (a :: l) - 1)) by (simpl List.length; lia).
      symmetry. apply item_at_of_nat. }
  rewrite Hc. cbn [selected set_selected].
  change 0%Z with (Z.of_nat 0). apply item_at_of_nat.
Qed.

(** [selectNext] when the selection is in the list and is not the last item;
    [i] is the first index holding it. *)
Lemma selectNext_inner (w : Dropcomplete) (x : ref) (i : nat) :
  selected w = Some x ->
  nth_error (items w) (List.length (items w) - 1) <> Some x ->
  nth_error (items w) i = Some x ->
  (forall j, j < i -> nth_error (items w) j <> Some x) ->
  selected (selectNext w) = nth_error (items w) (S i).
Proof.
  intros Hsel Hlast Hi Hfirst.
  assert (Hilen : i < List.length (items w))
    by (apply nth_error_Some; congruence).
  assert (Hi' : i <> List.length (items w) - 1) by congruence.
  unfold selectNext.
  assert (Hlen : (Z.of_nat (List.length (items w)) <? 1)%Z = false)
    by (apply Z.ltb_ge; lia).
  rewrite Hlen, Hsel. cbn [truthy_ref negb orb].
  replace (Z.of_nat (List.length (items w)) - 1)%Z
    with (Z.of_nat (List.length (items w) - 1)) by lia.
  rewrite item_at_of_nat.
  assert (Hne : same_ref (Some x)
                  (nth_error (items w) (List.length (items w) - 1)) = false)
    by (apply same_ref_false_iff; congruence).
  rewrite Hne. cbn [selected set_selected]. rewrite Nat2Z.id.
  change 0%Z with (Z.of_nat 0).
  apply selectNext_loop_found; try assumption; [lia | lia |].
  intros m _ Hm. now apply Hfirst.
Qed.

Lemma NoDup_nth_error_unique (its : list ref) (x : ref) (i j : nat) :
  NoDup its ->
  nth_error its i = Some x -> nth_error its j = Some x -> i = j.
Proof.
  intros Hnd Hi Hj. apply (proj1 (NoDup_nth_error its) Hnd).
  - apply nth_error_Some. congruence.
  - congruence.
Qed.

Lemma set_selected_twice (a b : option ref) (w : Dropcomplete) :
  set_selected a (set_selected b w) = set_selected a w.
Proof. reflexivity. Qed.

(** The round trip on a list without duplicates, from a selection that is in
    the list. *)
Lemma selectNext_selectPrev_NoDup (w : Dropcomplete) (x : ref) :
  NoDup (items w) ->
  selected w = Some x ->
  In x (items w) ->
  selectPrev (selectNext w) = w.
Proof.
  intros Hnd Hsel Hin.
  destruct (In_nth_error _ _ Hin) as [i Hi].
  assert (Hilen : i < List.length (items w))
    by (apply nth_error_Some; congruence).
  assert (Hne : items w <> []) by (intro C; rewrite C in Hin; inversion Hin).
  assert (Hback : selected (selectPrev (selectNext w)) = selected w).
  2:{ rewrite selectPrev_frame, Hback, selectNext_frame, set_selected_twice.
      apply set_selected_same. }
  rewrite Hsel.
  destruct (Nat.eq_dec i (List.length (items w) - 1)) as [E|E].
  - (* the selection is the last item *)
    assert (Hnext : selected (selectNext w) = nth_error (items w) 0).
    { apply selectNext_wrap; [exact Hne|]. right. now rewrite Hsel, <- E. }
    rewrite selectNext_frame, Hnext.
    rewrite selectPrev_first; cbn [items selected set_selected];
      [now rewrite <- E | exact Hne | reflexivity].
  - (* the selection has a successor *)
    assert (Hnext : selected (selectNext w) = nth_error (items w) (S i)).
    { apply (selectNext_inner w x i); try assumption.
      - intro C. apply E. exact (NoDup_nth_error_unique _ _ _ _ Hnd Hi C).
      - intros j Hj C.
        pose proof (NoDup_nth_error_unique _ _ _ _ Hnd Hi C). lia. }
    destruct (nth_error (items w) (S i)) as [y|] eqn:Hy.
    2:{ apply nth_error_None in Hy. lia. }
    rewrite selectNext_frame, Hnext.
    rewrite (selectPrev_inner _ y (S i)); cbn [items selected set_selected].
    + now rewrite Nat.sub_1_r.
    + reflexivity.
    + intro C. pose proof (NoDup_nth_error_unique _ _ _ _ Hnd Hy C). lia.
    + exact Hy.
    + intros j Hj C.
      pose proof (NoDup_nth_error_unique _ _ _ _ Hnd Hy C). lia.
Qed.

(** Three corner cases of the navigation.  With one item and nothing
    selected, the loop of [selectPrev] runs no turn and nothing gets
    selected.  A selection that is not in the list is treated by [selectPrev]
    like no selection, and is left alone by [selectNext].  When the list
    holds an object twice, [selectNext] then [selectPrev] need not come
    back. *)
Example selectPrev_single_item_none :
  selected (selectPrev (sample_widget [1] None)) = None.
Proof. reflexivity. Qed.

Example select_stale_selection :
  selected (selectPrev (sample_widget [1; 2; 3] (Some 9))) = Some 1
  /\ selected (selectNext (sample_widget [1; 2; 3] (Some 9))) = Some 9.
Proof. split; reflexivity. Qed.

Example selectNext_selectPrev_repeated_item :
  selected (selectPrev (selectNext (sample_widget [1; 1; 2] (Some 1))))
  = Some 2.
Proof. reflexivity. Qed.

(** *** Claims on navigation *)

(** C10.  On an empty [items] array both out-of-range reads of [selectNext],
    [items[items.length - 1]] and [items[0]], yield [undefined] without
    raising, and [selectNext] and [selectPrev] both return, having set
    [selected] to [undefined] and changed nothing else. *)
Theorem select_on_empty_items (w : Dropcomplete) :
  items w = [] ->
  item_at (items w) (Z.of_nat (List.length (items w)) - 1) = None
  /\ item_at (items w) 0 = None
  /\ selectNext w = set_selected None w
  /\ selectPrev w = set_selected None w.
Proof.
  intro H. repeat split.
  - rewrite H. apply item_at_nil.
  - rewrite H. apply item_at_nil.
  - now apply selectNext_empty.
  - now apply selectPrev_empty.
Qed.

Lemma select_on_empty_items_witness :
  selected (selectNext (sample_widget [] (Some 7))) = None
  /\ selected (selectPrev (sample_widget [] (Some 7))) = None.
Proof.
  destruct (select_on_empty_items (sample_widget [] (Some 7)))
    as (_ & _ & Hn & Hp); [reflexivity|].
  rewrite Hn, Hp. split; reflexivity.
Defined.

(** C4, as stated, fails: with nothing selected, [selectPrev] on a list of two
    items does not select the last item. *)
Lemma selectPrev_none_last_refuted :
  ~ (forall w : Dropcomplete,
       items w <> [] ->
       selected w = None ->
       selected (selectPrev w)
       = nth_error (items w) (List.length (items w) - 1)).
Proof.
  intro H.
  specialize (H (sample_widget [1; 2] None)).
  assert (E : selected (selectPrev (sample_widget [1; 2] None)) = Some 1)
    by reflexivity.
  rewrite E in H. simpl in H.
  assert (Hd : Some 1 = Some 2) by (apply H; [discriminate | reflexivity]).
  discriminate Hd.
Qed.

(** C4, amended.  On an empty list [selectPrev] leaves no selection.  On a
    non-empty list it selects the last item when the selection is the first
    item; when the selection is an item of the list other than the first, it
    selects the item just before the last index that holds the selection; and
    when nothing is selected and the list has at least two items, it selects
    the first item. *)
Theorem selectPrev_selection (w : Dropcomplete) :
  (items w = [] -> selected (selectPrev w) = None)
  /\ (items w <> [] ->
      selected w = nth_error (items w) 0 ->
      selected (selectPrev w)
      = nth_error (items w) (List.length (items w) - 1))
  /\ (forall x i,
        selected w = Some x ->
        nth_error (items w) 0 <> Some x ->
        nth_error (items w) i = Some x ->
        (forall j, i < j -> nth_error (items w) j <> Some x) ->
        selected (selectPrev w) = nth_error (items w) (i - 1))
  /\ (2 <= List.length (items w) ->
      selected w = None ->
      selected (selectPrev w) = nth_error (items w) 0).
Proof.
  repeat split.
  - intro H. now rewrite selectPrev_empty.
  - apply selectPrev_first.
  - apply selectPrev_inner.
  - apply selectPrev_none.
Qed.

Lemma selectPrev_selection_witness :
  selected (selectPrev (sample_widget [] (Some 4))) = None
  /\ selected (selectPrev (sample_widget [1; 2; 3] (Some 1))) = Some 3
  /\ selected (selectPrev (sample_widget [1; 2; 3] (Some 3))) = Some 2
  /\ selected (selectPrev (sample_widget [1; 2] None)) = Some 1.
Proof.
  split; [|split; [|split]].
  - apply (proj1 (selectPrev_selection (sample_widget [] (Some 4)))).
    reflexivity.
  - apply (proj1 (proj2 (selectPrev_selection
                           (sample_widget [1; 2; 3] (Some 1))))).
    + discriminate.
    + reflexivity.
  - apply (proj1 (proj2 (proj2 (selectPrev_selection
                                  (sample_widget [1; 2; 3] (Some 3)))))
             3 2).
    + reflexivity.
    + discriminate.
    + reflexivity.
    + intros j Hj. destruct j as [|[|[|j]]]; try lia.
      simpl. destruct j; discriminate.
  - apply (proj2 (proj2 (proj2 (selectPrev_selection
                                  (sample_widget [1; 2] None))))).
    + simpl. lia.
    + reflexivity.
Defined.

(** C5, as stated, fails: starting with nothing selected on a list of two
    items, [selectNext] then [selectPrev] ends on the second item. *)
Lemma selectNext_selectPrev_refuted :
  ~ (forall w : Dropcomplete,
       items w <> [] ->
       selected (selectPrev (selectNext w)) = selected w).
Proof.
  intro H.
  specialize (H (sample_widget [1; 2] None)).
  assert (E : selected (selectPrev (selectNext (sample_widget [1; 2] None)))
              = Some 2) by reflexivity.
  rewrite E in H.
  assert (Hd : Some 2 = selected (sample_widget [1; 2] None))
    by (apply H; discriminate).
  discriminate Hd.
Qed.

(** C5, amended.  For every [items] list without repeated items and every
    starting selection that is an item of the list, [selectNext] followed by
    [selectPrev] returns the widget, and so its selection, to where it
    started. *)
Theorem selectNext_selectPrev_roundtrip (w : Dropcomplete) (x : ref) :
  NoDup (items w) ->
  selected w = Some x ->
  In x (items w) ->
  selectPrev (selectNext w) = w
  /\ selected (selectPrev (selectNext w)) = Some x.
Proof.
  intros Hnd Hsel Hin.
  pose proof (selectNext_selectPrev_NoDup w x Hnd Hsel Hin) as E.
  split; [exact E | now rewrite E].
Qed.

Lemma selectNext_selectPrev_roundtrip_witness :
  selected (selectPrev (selectNext (sample_widget [5; 6; 7] (Some 6))))
  = Some 6.
Proof.
  apply (selectNext_selectPrev_roundtrip (sample_widget [5; 6; 7] (Some 6)) 6).
  - simpl. repeat constructor; simpl; intuition discriminate.
  - reflexivity.
  - simpl. auto.
Defined.

(** ** Rendering *)

Lemma truthy_string_or_empty (s : option string) :
  truthy_string s = negb (String.eqb (or_empty s) "").
Proof. now destruct s as [[|c s]|]. Qed.

Lemma last_cons {A : Type} (a d : A) (l : list A) :
  last (a :: l) d = last l a.
Proof.
  revert a d. induction l as [|b l IH]; intros a d; [reflexivity|].
  change (last (a :: b :: l) d) with (last (b :: l) d).
  now rewrite (IH b d), (IH b a).
Qed.

(** The value of the loop variable [prevGroup] after the loop of [update]
    went through [pre], having started from [p]: the last non-empty group
    name met, or [p] if there was none. *)
Lemma update_loop_app (heap : Heap) (w : Dropcomplete) (pre rest : list ref)
    (p : string) :
  update_loop heap w (pre ++ rest) p
  = update_loop heap w pre p
    ++ update_loop heap w rest
         (last (filter (fun s => negb (String.eqb s ""))
                  (map (fun r => or_empty (group (heap r))) pre)) p).
Proof.
  revert p. induction pre as [|item pre IH]; intro p; [reflexivity|].
  cbn [app update_loop map filter].
  rewrite truthy_string_or_empty.
  set (g := or_empty (group (heap item))).
  rewrite IH, <- !app_assoc. do 3 f_equal.
  destruct (String.eqb g "") eqn:Hg; cbn [negb andb]; [reflexivity|].
  rewrite last_cons.
  destruct (String.eqb_spec g p) as [E|E]; cbn [negb];
    [now rewrite E | reflexivity].
Qed.

Lemma view_classList_add (c : string) (el : Element) :
  view (classList_add c el) = view el.
Proof.
  unfold classList_add. now destruct (existsb (String.eqb c) (classList el)).
Qed.

Lemma click_classList_add (c : string) (el : Element) :
  click (classList_add c el) = click el.
Proof.
  unfold classList_add. now destruct (existsb (String.eqb c) (classList el)).
Qed.

Lemma textContent_classList_add (c : string) (el : Element) :
  textContent (classList_add c el) = textContent el.
Proof.
  unfold classList_add. now destruct (existsb (String.eqb c) (classList el)).
Qed.

(** One turn of the loop under the default renderers, as the user sees it. *)
Lemma view_update_loop_cons (heap : Heap) (w : Dropcomplete) (item : ref)
    (rest : list ref) (p : string) :
  render w = default_render ->
  renderGroup w = default_renderGroup ->
  let g := or_empty (group (heap item)) in
  let header := negb (String.eqb g "") && negb (String.eqb g p) in
  map view (update_loop heap w (item :: rest) p)
  = (if header then [inr g] else [])
    ++ inl item
       :: map view (update_loop heap w rest (if header then g else p)).
Proof.
  intros Hr Hg. cbn zeta. cbn [update_loop].
  rewrite Hr, Hg, truthy_string_or_empty.
  unfold default_render, default_renderGroup.
  destruct (negb (String.eqb (or_empty (group (heap item))) "")
            && negb (String.eqb (or_empty (group (heap item))) p));
    destruct (same_ref (Some item) (selected w)); reflexivity.
Qed.

(** The elements of the items, picked out of the loop's output under the
    default renderers. *)
Lemma clickable_update_loop (heap : Heap) (w : Dropcomplete) (its : list ref)
    (p : string) :
  render w = default_render ->
  renderGroup w = default_renderGroup ->
  map (fun el => (click el, textContent el))
    (filter clickable (update_loop heap w its p))
  = map (fun item => (Some item, or_empty (label (heap item)))) its.
Proof.
  intros Hr Hg. revert p. induction its as [|item its IH]; intro p;
    [reflexivity|].
  cbn [update_loop]. rewrite Hr, Hg.
  unfold default_render, default_renderGroup.
  rewrite !filter_app, !map_app, IH.
  destruct (truthy_string (group (heap item))
            && negb (String.eqb (or_empty (group (heap item))) p));
    destruct (same_ref (Some item) (selected w)); reflexivity.
Qed.

Lemma update_loop_set_container (heap : Heap) (c : Container)
    (w : Dropcomplete) (its : list ref) (p : string) :
  update_loop heap (set_container c w) its p = update_loop heap w its p.
Proof.
  revert p. induction its as [|item its IH]; intro p; [reflexivity|].
  cbn [update_loop]. now rewrite IH.
Qed.

(** What [update] leaves in the container. *)
Lemma update_children (heap : Heap) (w : Dropcomplete) :
  children (container (update heap w))
  = update_loop heap w (items w) "#9?$"
    ++ (if (Z.of_nat (List.length (items w)) <? 1)%Z
           && truthy_string (emptyMsg w)
        then [mkElement (or_empty (emptyMsg w)) ["empty"] None]
        else []).
Proof.
  unfold update. cbn [items set_container container children parentNode app
                      emptyMsg].
  rewrite update_loop_set_container.
  destruct (Z.of_nat (List.length (items w)) <? 1)%Z eqn:Hlen; cbn [andb].
  - destruct (truthy_string (emptyMsg w)).
    + unfold attach, appendChild.
      cbn [set_container container children parentNode].
      destruct (parentNode (container w)); reflexivity.
    + unfold clear, detach.
      destruct (parentNode (container w)); cbn; now rewrite app_nil_r.
  - unfold attach. cbn [set_container container children parentNode].
    destruct (parentNode (container w)); cbn; now rewrite app_nil_r.
Qed.

Lemma update_children_nonempty (heap : Heap) (w : Dropcomplete) :
  items w <> [] ->
  children (container (update heap w)) = update_loop heap w (items w) "#9?$".
Proof.
  intro Hne. rewrite update_children.
  apply length_ge_1 in Hne. rewrite Hne. apply app_nil_r.
Qed.

(** Two more cases of the grouping.  An item without a group, or with the
    empty string as its group, gets no header and does not change
    [prevGroup], so the item after it gets no header either when its group
    is the one before the gap. *)
Example update_loop_group_gap :
  let heap : Heap :=
    fun r =>
      match r with
      | 2 => mkItem (Some "b") None
      | 4 => mkItem (Some "d") (Some "")
      | _ => mkItem (Some "x") (Some "G1")
      end in
  map view
    (update_loop heap (sample_widget [1; 2; 3; 4; 5] None) [1; 2; 3; 4; 5]
       "#9?$")
  = [inr "G1"; inl 1; inl 2; inl 3; inl 4; inl 5].
Proof. reflexivity. Qed.

(** An item for which [render] returns nothing is left out: no element, no
    click listener. *)
Example update_loop_skips_unrendered :
  let w :=
    set_renderers
      (fun item =>
         match label item with
         | Some _ => default_render item
         | None => None
         end)
      default_renderGroup
      (sample_widget [1; 2] None) in
  let heap : Heap :=
    fun r =>
      match r with
      | 1 => mkItem None None
      | _ => mkItem (Some "b") None
      end in
  map view (children (container (update heap w))) = [inl 2].
Proof. reflexivity. Qed.

(** *** Claims on rendering *)

(** C3, as stated, fails: [update] tests [item.group &&] before it compares,
    so an item without a group never gets a header.  For the items
    [{label:"a",group:"G1"}], [{label:"b"}] the second item's group differs
    from the first one's, and the rule of the specification puts a header
    before it; [update] emits the one header "G1" only. *)
Lemma update_grouping_refuted :
  ~ (forall (heap : Heap) (w : Dropcomplete),
       render w = default_render ->
       renderGroup w = default_renderGroup ->
       items w <> [] ->
       map view (children (container (update heap w)))
       = spec_grouping heap (items w) None).
Proof.
  intro H.
  specialize (H gap_heap (sample_widget [1; 2] None)
                eq_refl eq_refl ltac:(discriminate)).
  vm_compute in H. discriminate H.
Qed.

(** C3, amended.  Under the default renderers, going through [items] in
    order, [update] emits a group header before an item exactly when the
    item's group is present, is not the empty string, and either no item
    before it has a non-empty group or its group differs from the last
    non-empty group among the items before it; an item whose group is absent
    or empty gets no header and is passed over when groups are compared.
    This is stated for items none of whose groups is the string the loop
    starts from.  In particular, for the items [{label:"a",group:"G1"}],
    [{label:"b",group:"G1"}], [{label:"c",group:"G2"}] exactly two headers
    are emitted, "G1" before "a" and "G2" before "c". *)
Theorem update_group_headers (heap : Heap) (w : Dropcomplete)
    (pre : list ref) (item : ref) (post : list ref) :
  render w = default_render ->
  renderGroup w = default_renderGroup ->
  items w = pre ++ item :: post ->
  (forall r, In r (items w) -> group (heap r) <> Some "#9?$") ->
  let g := or_empty (group (heap item)) in
  let earlier :=
    filter (fun s => negb (String.eqb s ""))
      (map (fun r => or_empty (group (heap r))) pre) in
  let header :=
    negb (String.eqb g "")
    && match earlier with
       | [] => true
       | _ :: _ => negb (String.eqb g (last earlier ""))
       end in
  map view (children (container (update heap w)))
  = map view (update_loop heap w pre "#9?$")
    ++ (if header then [inr g] else [])
    ++ inl item
       :: map view
            (update_loop heap w post
               (if header then g else last earlier "#9?$"))
  /\ map view
       (children
          (container (update sample_heap (sample_widget [1; 2; 3] (Some 1)))))
     = [inr "G1"; inl 1; inl 2; inr "G2"; inl 3].
Proof.
  intros Hr Hg Hits Hfree. cbn zeta. split; [|reflexivity].
  rewrite update_children_nonempty
    by (rewrite Hits; destruct pre; discriminate).
  rewrite Hits, update_loop_app, map_app. f_equal.
  rewrite (view_update_loop_cons heap w item post _ Hr Hg). cbn zeta.
  set (g := or_empty (group (heap item))).
  set (earlier := filter (fun s => negb (String.eqb s ""))
                    (map (fun r => or_empty (group (heap r))) pre)).
  assert (Hsame :
    negb (String.eqb g "") && negb (String.eqb g (last earlier "#9?$"))
    = negb (String.eqb g "")
      && match earlier with
         | [] => true
         | _ :: _ => negb (String.eqb g (last earlier ""))
         end).
  { f_equal. destruct earlier as [|x l].
    - cbn [last]. apply negb_true_iff, String.eqb_neq. intro C.
      apply (Hfree item).
      + rewrite Hits. apply in_or_app. right. now left.
      + unfold g in C. destruct (group (heap item)) as [t|];
          cbn [or_empty] in C; [now rewrite C | discriminate C].
    - now rewrite !last_cons. }
  now rewrite Hsame.
Qed.

Lemma update_group_headers_witness :
  map view
    (children
       (container (update sample_heap (sample_widget [1; 2; 3] (Some 1)))))
  = map view
      (update_loop sample_heap (sample_widget [1; 2; 3] (Some 1)) [1; 2]
         "#9?$")
    ++ [inr "G2"] ++ [inl 3].
Proof.
  refine (proj1 (update_group_headers sample_heap
                   (sample_widget [1; 2; 3] (Some 1)) [1; 2] 3 []
                   eq_refl eq_refl eq_refl _)).
  intros r Hin. simpl in Hin.
  destruct Hin as [<-|[<-|[<-|[]]]]; discriminate.
Defined.

(** C9.  The default item renderer returns an element for every item, a
    [div] whose text is the item's label, or the empty text when the item has
    no label.  So under the default renderers [update] skips no item: the
    elements with a click listener that it leaves in the container are one
    per item of [items], in the order of [items], each with its item's
    listener and label. *)
Theorem default_render_one_element_per_item (heap : Heap) (w : Dropcomplete) :
  render w = default_render ->
  renderGroup w = default_renderGroup ->
  (forall item : DropcompleteItem,
     exists el, default_render item = Some el
                /\ textContent el = or_empty (label item))
  /\ map click (filter clickable (children (container (update heap w))))
     = map Some (items w)
  /\ map textContent
       (filter clickable (children (container (update heap w))))
     = map (fun item => or_empty (label (heap item))) (items w)
  /\ List.length (filter clickable (children (container (update heap w))))
     = List.length (items w).
Proof.
  intros Hr Hg.
  assert (Hf : filter clickable (children (container (update heap w)))
               = filter clickable (update_loop heap w (items w) "#9?$")).
  { rewrite update_children, filter_app.
    destruct ((Z.of_nat (List.length (items w)) <? 1)%Z
              && truthy_string (emptyMsg w)); cbn; apply app_nil_r. }
  pose proof (clickable_update_loop heap w (items w) "#9?$" Hr Hg) as Hc.
  rewrite <- Hf in Hc.
  split; [|split; [|split]].
  - intro item. eexists. split; reflexivity.
  - apply (f_equal (map fst)) in Hc. rewrite !map_map in Hc. exact Hc.
  - apply (f_equal (map snd)) in Hc. rewrite !map_map in Hc. exact Hc.
  - apply (f_equal (@List.length _)) in Hc. now rewrite !length_map in Hc.
Qed.

Lemma default_render_one_element_per_item_witness :
  map click
    (filter clickable
       (children
          (container (update sample_heap (sample_widget [1; 2; 3] (Some 1))))))
  = [Some 1; Some 2; Some 3].
Proof.
  exact (proj1 (proj2 (default_render_one_element_per_item sample_heap
                         (sample_widget [1; 2; 3] (Some 1))
                         eq_refl eq_refl))).
Defined.

(** C6, as stated, fails: a configured [emptyMsg] that is the empty string is
    falsy, so [update] on an empty list clears the widget instead of showing
    it. *)
Lemma update_empty_message_refuted :
  ~ (forall (heap : Heap) (w : Dropcomplete) (m : string),
       items w = [] ->
       emptyMsg w = Some m ->
       parentNode (container (update heap w)) = true
       /\ map textContent (children (container (update heap w))) = [m]).
Proof.
  intro H.
  destruct (H sample_heap
              (self (construct
                       (Settings.mk (mkInput "" None) None (Some "") None
                          None)))
              "" eq_refl eq_refl) as [Hp _].
  vm_compute in Hp. discriminate Hp.
Qed.

(** C6, amended.  When [update] runs with an empty [items] list: if a
    non-empty [emptyMsg] string is configured, the overlay is attached and
    contains exactly one element, of class "empty", whose text is that
    string; if no [emptyMsg] is configured, or the configured one is the
    empty string, the widget is cleared ([items] empty, [inputValue] empty,
    nothing selected) and the overlay is not attached afterwards. *)
Theorem update_empty_items (heap : Heap) (w : Dropcomplete) :
  items w = [] ->
  (forall m, emptyMsg w = Some m -> m <> "" ->
     parentNode (container (update heap w)) = true
     /\ children (container (update heap w)) = [mkElement m ["empty"] None])
  /\ (emptyMsg w = None \/ emptyMsg w = Some "" ->
      update heap w
      = clear (set_container (mkContainer [] (parentNode (container w))) w)
      /\ items (update heap w) = []
      /\ inputValue (update heap w) = ""
      /\ selected (update heap w) = None
      /\ children (container (update heap w)) = []
      /\ parentNode (container (update heap w)) = false).
Proof.
  intro Hits. split.
  - intros m Hm Hne.
    assert (Ht : truthy_string (emptyMsg w) = true).
    { rewrite Hm. destruct m; [congruence | reflexivity]. }
    unfold update. cbn [items set_container emptyMsg].
    rewrite Hits, Ht, Hm. cbn.
    unfold attach, appendChild. cbn.
    destruct (parentNode (container w)); cbn; split; reflexivity.
  - intro Hm.
    assert (Ht : truthy_string (emptyMsg w) = false).
    { destruct Hm as [Hm|Hm]; now rewrite Hm. }
    assert (E : update heap w
                = clear (set_container
                           (mkContainer [] (parentNode (container w))) w)).
    { unfold update. cbn [items set_container emptyMsg].
      rewrite Hits, Ht. cbn. reflexivity. }
    rewrite E. unfold clear, detach. cbn.
    destruct (parentNode (container w)); cbn; repeat split; reflexivity.
Qed.

Lemma update_empty_items_witness :
  children
    (container
       (update sample_heap
          (self (construct
                   (Settings.mk (mkInput "" None) None (Some "No results")
                      None None)))))
  = [mkElement "No results" ["empty"] None]
  /\ parentNode
       (container (update sample_heap (self (construct sample_settings))))
     = false.
Proof.
  split.
  - apply (proj1 (update_empty_items sample_heap
                    (self (construct
                             (Settings.mk (mkInput "" None) None
                                (Some "No results") None None)))
                    eq_refl) "No results").
    + reflexivity.
    + discriminate.
  - apply (proj2 (update_empty_items sample_heap
                    (self (construct sample_settings)) eq_refl)).
    left. reflexivity.
Defined.

(** ** What the methods do to the widget's fields *)

Lemma clear_fields (w : Dropcomplete) :
  items (clear w) = []
  /\ inputValue (clear w) = ""
  /\ selected (clear w) = None
  /\ keypressCounter (clear w) = (keypressCounter w + 1)%Z
  /\ parentNode (container (clear w)) = false
  /\ children (container (clear w)) = children (container w).
Proof.
  unfold clear, detach. cbn.
  destruct (parentNode (container w)) eqn:E; cbn; rewrite ?E;
    repeat split; reflexivity.
Qed.

Lemma attach_fields (w : Dropcomplete) :
  items (attach w) = items w
  /\ inputValue (attach w) = inputValue w
  /\ selected (attach w) = selected w
  /\ keypressCounter (attach w) = keypressCounter w
  /\ parentNode (container (attach w)) = true.
Proof.
  unfold attach.
  destruct (parentNode (container w)) eqn:E; cbn; rewrite ?E;
    repeat split; reflexivity.
Qed.

(** [update] either clears the widget, which it does only on an empty list,
    or leaves [items], [inputValue], [selected] and the counter alone. *)
Lemma update_fields (heap : Heap) (w : Dropcomplete) :
  (items w = []
   /\ items (update heap w) = []
   /\ inputValue (update heap w) = ""
   /\ selected (update heap w) = None
   /\ keypressCounter (update heap w) = (keypressCounter w + 1)%Z)
  \/ (items (update heap w) = items w
      /\ inputValue (update heap w) = inputValue w
      /\ selected (update heap w) = selected w
      /\ keypressCounter (update heap w) = keypressCounter w).
Proof.
  unfold update. cbn [items set_container emptyMsg].
  destruct (Z.of_nat (List.length (items w)) <? 1)%Z eqn:Hlen.
  - destruct (truthy_string (emptyMsg w)).
    + right.
      match goal with |- context [attach ?x] =>
        destruct (attach_fields x) as (H1 & H2 & H3 & H4 & _) end.
      rewrite H1, H2, H3, H4. repeat split; reflexivity.
    + left. apply length_lt_1 in Hlen.
      match goal with |- context [clear ?x] =>
        destruct (clear_fields x) as (H1 & H2 & H3 & H4 & _) end.
      rewrite H1, H2, H3, H4. repeat split; try reflexivity. exact Hlen.
  - right.
    match goal with |- context [attach ?x] =>
      destruct (attach_fields x) as (H1 & H2 & H3 & H4 & _) end.
    rewrite H1, H2, H3, H4. repeat split; reflexivity.
Qed.

Lemma updateIfDisplayed_fields (heap : Heap) (w : Dropcomplete) :
  (items w = []
   /\ items (updateIfDisplayed heap w) = []
   /\ inputValue (updateIfDisplayed heap w) = ""
   /\ selected (updateIfDisplayed heap w) = None
   /\ keypressCounter (updateIfDisplayed heap w) = (keypressCounter w + 1)%Z)
  \/ (items (updateIfDisplayed heap w) = items w
      /\ inputValue (updateIfDisplayed heap w) = inputValue w
      /\ selected (updateIfDisplayed heap w) = selected w
      /\ keypressCounter (updateIfDisplayed heap w) = keypressCounter w).
Proof.
  unfold updateIfDisplayed. destruct (containerDisplayed w).
  - apply update_fields.
  - right. repeat split; reflexivity.
Qed.

(** ** [selected] stays in [items] *)

Lemma selected_in_items_clear (w : Dropcomplete) : selected_in_items (clear w).
Proof.
  unfold selected_in_items.
  destruct (clear_fields w) as (_ & _ & H & _). now rewrite H.
Qed.

Lemma selected_in_items_set (v : option ref) (w : Dropcomplete) :
  (forall x, v = Some x -> In x (items w)) ->
  selected_in_items (set_selected v w).
Proof.
  intro H. unfold selected_in_items. cbn [selected set_selected items].
  destruct v as [x|]; [now apply H | exact I].
Qed.

Lemma selected_in_items_selectPrev (w : Dropcomplete) :
  selected_in_items w -> selected_in_items (selectPrev w).
Proof.
  intro Hinv. unfold selectPrev.
  destruct (Z.of_nat (List.length (items w)) <? 1)%Z.
  { now apply selected_in_items_set. }
  destruct (same_ref (selected w) (item_at (items w) 0)).
  { apply selected_in_items_set. intros x. apply item_at_In. }
  apply selected_in_items_set. intros x Hx.
  destruct (selectPrev_loop_cases (items w) (selected w)
              (Z.to_nat (Z.of_nat (List.length (items w)) - 1)))
    as [E|[i [E _]]]; rewrite E in Hx.
  - unfold selected_in_items in Hinv. now rewrite Hx in Hinv.
  - now apply nth_error_In in Hx.
Qed.

Lemma selected_in_items_selectNext (w : Dropcomplete) :
  selected_in_items w -> selected_in_items (selectNext w).
Proof.
  intro Hinv. unfold selectNext.
  set (w1 := if (Z.of_nat (List.length (items w)) <? 1)%Z
             then set_selected None w else w).
  assert (Hinv1 : selected_in_items w1).
  { unfold w1. destruct (Z.of_nat (List.length (items w)) <? 1)%Z;
      [now apply selected_in_items_set | exact Hinv]. }
  assert (Hits : items w1 = items w).
  { unfold w1. now destruct (Z.of_nat (List.length (items w)) <? 1)%Z. }
  destruct (negb (truthy_ref (selected w1))
            || same_ref (selected w1)
                 (item_at (items w1)
                    (Z.of_nat (List.length (items w)) - 1))).
  { apply selected_in_items_set. intros x. apply item_at_In. }
  apply selected_in_items_set. intros x Hx.
  destruct (selectNext_loop_cases (items w1) (selected w1)
              (Z.to_nat (Z.of_nat (List.length (items w)) - 1)) 0)
    as [E|[j E]]; rewrite E in Hx.
  - unfold selected_in_items in Hinv1. now rewrite Hx in Hinv1.
  - now apply item_at_In in Hx.
Qed.

Lemma selected_in_items_update (heap : Heap) (w : Dropcomplete) :
  selected_in_items w -> selected_in_items (update heap w).
Proof.
  intro Hinv. unfold selected_in_items.
  destruct (update_fields heap w) as [(_ & _ & _ & H & _)|(H1 & _ & H3 & _)].
  - now rewrite H.
  - now rewrite H1, H3.
Qed.

Lemma selected_in_items_fetch_update (heap : Heap) (c : FetchCall)
    (r : option (list ref)) (s : World) :
  selected_in_items (self s) ->
  selected_in_items (self (fetch_update heap c r s)).
Proof.
  intro Hinv. unfold fetch_update. destruct r as [its|]; [|exact Hinv].
  destruct (keypressCounter (self s) =? savedKeypressCounter c)%Z;
    [|exact Hinv].
  cbn [self on_self]. apply selected_in_items_update.
  apply selected_in_items_set. cbn [items set_inputValue set_items].
  intros x. destruct (Z.of_nat (List.length its) <? 1)%Z; [discriminate|].
  apply item_at_In.
Qed.

(** C8.  Each of the operations that change [items] or [selected], that is
    [clear], [selectNext], [selectPrev] and the result callback of a fetch,
    takes a widget in which [selected], if present, is one of the objects in
    [items] to a widget with the same property. *)
Theorem selected_in_items_preserved (heap : Heap) (s : World) :
  selected_in_items (self s) ->
  selected_in_items (clear (self s))
  /\ selected_in_items (selectNext (self s))
  /\ selected_in_items (selectPrev (self s))
  /\ (forall c r, selected_in_items (self (fetch_update heap c r s))).
Proof.
  intro Hinv. split; [|split; [|split]].
  - apply selected_in_items_clear.
  - now apply selected_in_items_selectNext.
  - now apply selected_in_items_selectPrev.
  - intros c r. now apply selected_in_items_fetch_update.
Qed.

Lemma selected_in_items_preserved_witness :
  selected_in_items (selectNext (sample_widget [5; 6; 7] (Some 6)))
  /\ selected_in_items (selectPrev (sample_widget [5; 6; 7] (Some 6))).
Proof.
  destruct (selected_in_items_preserved sample_heap
              (mkWorld (sample_widget [5; 6; 7] (Some 6)) [] [] [] 0))
    as (_ & Hn & Hp & _).
  - right. left. reflexivity.
  - split; [exact Hn | exact Hp].
Defined.

(** ** The counter never goes down *)

Lemma counter_clear (w : Dropcomplete) :
  keypressCounter (clear w) = (keypressCounter w + 1)%Z.
Proof. now destruct (clear_fields w) as (_ & _ & _ & H & _). Qed.

Lemma counter_selectPrev (w : Dropcomplete) :
  keypressCounter (selectPrev w) = keypressCounter w.
Proof. now rewrite selectPrev_frame. Qed.

Lemma counter_selectNext (w : Dropcomplete) :
  keypressCounter (selectNext w) = keypressCounter w.
Proof. now rewrite selectNext_frame. Qed.

Lemma counter_update (heap : Heap) (w : Dropcomplete) :
  (keypressCounter w <= keypressCounter (update heap w))%Z.
Proof.
  destruct (update_fields heap w) as [(_ & _ & _ & _ & H)|(_ & _ & _ & H)];
    rewrite H; lia.
Qed.

Lemma counter_updateIfDisplayed (heap : Heap) (w : Dropcomplete) :
  (keypressCounter w <= keypressCounter (updateIfDisplayed heap w))%Z.
Proof.
  unfold updateIfDisplayed. destruct (containerDisplayed w);
    [apply counter_update | lia].
Qed.

Lemma quiet_refl (s : World) : quiet s s.
Proof. split; [reflexivity | lia]. Qed.

Lemma quiet_trans (s1 s2 s3 : World) : quiet s1 s2 -> quiet s2 s3 -> quiet s1 s3.
Proof. intros [H1 H2] [H3 H4]. split; [congruence | lia]. Qed.

Lemma quiet_on_self (f : Dropcomplete -> Dropcomplete) (s : World) :
  (keypressCounter (self s) <= keypressCounter (f (self s)))%Z ->
  quiet s (on_self f s).
Proof. intro H. split; [reflexivity | exact H]. Qed.

Lemma quiet_clear (s : World) : quiet s (on_self clear s).
Proof. apply quiet_on_self. rewrite counter_clear. lia. Qed.

Lemma quiet_update (heap : Heap) (s : World) : quiet s (on_self (update heap) s).
Proof. apply quiet_on_self, counter_update. Qed.

Lemma quiet_updateIfDisplayed (heap : Heap) (s : World) :
  quiet s (on_self (updateIfDisplayed heap) s).
Proof. apply quiet_on_self, counter_updateIfDisplayed. Qed.

Lemma quiet_call_onSelect (item : ref) (s : World) :
  quiet s (call_onSelect item s).
Proof. split; [reflexivity | cbn [self call_onSelect]; lia]. Qed.

Lemma quiet_click_listener (item : ref) (s : World) :
  quiet s (click_listener item s).
Proof.
  unfold click_listener.
  eapply quiet_trans; [apply quiet_call_onSelect | apply quiet_clear].
Qed.

Lemma quiet_keydownEventHandler (heap : Heap) (event : DomEvent) (s : World) :
  quiet s (keydownEventHandler heap event s).
Proof.
  unfold keydownEventHandler.
  destruct (String.eqb (key event) "ArrowUp"
            || String.eqb (key event) "ArrowDown"
            || String.eqb (key event) "Escape").
  - destruct (String.eqb (key event) "Escape"); [apply quiet_clear|].
    destruct (negb (containerDisplayed (self s))
              || (Z.of_nat (List.length (items (self s))) <? 1)%Z);
      [apply quiet_refl|].
    destruct (String.eqb (key event) "ArrowUp");
      (eapply quiet_trans; [|apply quiet_update]);
      apply quiet_on_self;
      rewrite ?counter_selectPrev, ?counter_selectNext; lia.
  - destruct (String.eqb (key event) "Enter"); [|apply quiet_refl].
    destruct (selected (self s)); [|apply quiet_refl].
    apply quiet_click_listener.
Qed.

Lemma quiet_blur_timeout (a : bool) (s : World) : quiet s (blur_timeout a s).
Proof.
  unfold blur_timeout. destruct (blurTimers s) as [|n]; [apply quiet_refl|].
  assert (Hq : quiet s (set_blurTimers n s))
    by (split; [reflexivity | cbn [self set_blurTimers]; lia]).
  destruct a; cbn [negb]; [exact Hq|].
  eapply quiet_trans; [exact Hq | apply quiet_clear].
Qed.

Lemma quiet_fetch_update (heap : Heap) (c : FetchCall) (r : option (list ref))
    (s : World) :
  quiet s (fetch_update heap c r s).
Proof.
  unfold fetch_update. destruct r as [its|]; [|apply quiet_refl].
  destruct (keypressCounter (self s) =? savedKeypressCounter c)%Z;
    [|apply quiet_refl].
  apply quiet_on_self.
  match goal with |- (_ <= keypressCounter (update heap ?x))%Z =>
    pose proof (counter_update heap x) as H end.
  exact H.
Qed.

Lemma quiet_destroy (s : World) : quiet s (destroy s).
Proof.
  unfold destroy. eapply quiet_trans; [|apply quiet_clear].
  split; [reflexivity | cbn [self set_listeners]; lia].
Qed.

(** ** Captured counter values *)

Lemma epochs_bounded_quiet (s s' : World) :
  quiet s s' -> epochs_bounded s -> epochs_bounded s'.
Proof.
  intros [Hc Hk] Hinv n c Hn. rewrite Hc in *.
  destruct (Hinv n c Hn) as [H1 H2]. split; [lia|].
  intro Hlt. specialize (H2 Hlt). lia.
Qed.

Lemma epochs_bounded_startFetch (isFocus : bool) (s : World) :
  epochs_bounded s -> epochs_bounded (startFetch isFocus s).
Proof.
  intro Hinv. unfold startFetch.
  set (s1 := on_self
               (fun w => set_keypressCounter (keypressCounter w + 1)%Z w) s).
  assert (Hq : quiet s s1)
    by (apply quiet_on_self; cbn [keypressCounter set_keypressCounter]; lia).
  destruct ((Z.of_nat (String.length (value (input (self s1))))
             >=? minLen (self s1))%Z || isFocus).
  - intros n c Hn. cbn [fetchCalls call_fetch self] in *.
    rewrite length_app. cbn [List.length].
    destruct (Nat.lt_ge_cases n (List.length (fetchCalls s1))) as [Hlt|Hge].
    + rewrite nth_error_app1 in Hn by exact Hlt.
      destruct (Hinv n c Hn) as [H1 _].
      cbn [s1 self on_self keypressCounter set_keypressCounter]. lia.
    + rewrite nth_error_app2 in Hn by exact Hge.
      destruct (n - List.length (fetchCalls s1)) as [|k] eqn:Hk.
      * cbn in Hn. injection Hn as <-.
        cbn [savedKeypressCounter s1 self on_self keypressCounter
             set_keypressCounter].
        split; [lia|]. intro. lia.
      * cbn in Hn. now destruct k.
  - apply (epochs_bounded_quiet s); [|exact Hinv].
    eapply quiet_trans; [exact Hq | apply quiet_clear].
Qed.

Lemma epochs_bounded_run_callback (heap : Heap) (cb : Callback)
    (event : DomEvent) (s : World) :
  epochs_bounded s -> epochs_bounded (run_callback heap cb event s).
Proof.
  intro Hinv. destruct cb as [[]|h]; cbn [run_callback]; try exact Hinv.
  - apply (epochs_bounded_quiet s);
      [apply quiet_keydownEventHandler | exact Hinv].
  - unfold keyupEventHandler.
    destruct (existsb _ ignores); [exact Hinv|].
    destruct (String.eqb (key event) "Fn"); [exact Hinv|].
    destruct (String.eqb (key event) "ArrowDown"
              && containerDisplayed (self s)); [exact Hinv|].
    now apply epochs_bounded_startFetch.
  - unfold focusEventHandler.
    destruct (showOnFocus (self s)) as [[|]|]; try exact Hinv.
    now apply epochs_bounded_startFetch.
  - apply (epochs_bounded_quiet s);
      [apply quiet_updateIfDisplayed | exact Hinv].
  - unfold scrollEventHandler. destruct (negb (targetIsContainer event));
      [|exact Hinv].
    apply (epochs_bounded_quiet s);
      [apply quiet_updateIfDisplayed | exact Hinv].
Qed.

Lemma epochs_bounded_dispatch (heap : Heap) (target : EventTarget)
    (type : string) (event : DomEvent) (s : World) :
  epochs_bounded s -> epochs_bounded (dispatch heap target type event s).
Proof.
  unfold dispatch. generalize (listeners s) as ls. intro ls. revert s.
  induction ls as [|l ls IH]; intros s Hinv; [exact Hinv|].
  cbn [fold_left]. apply IH.
  destruct (EventTarget_eqb (l_target l) target && String.eqb (l_type l) type);
    [now apply epochs_bounded_run_callback | exact Hinv].
Qed.

Lemma epochs_bounded_step (heap : Heap) (s : World) (e : Event) :
  epochs_bounded s -> epochs_bounded (step heap s e).
Proof.
  intro Hinv. destruct e as [target type event|i|a|n r|n|]; cbn [step].
  - now apply epochs_bounded_dispatch.
  - exact Hinv.
  - apply (epochs_bounded_quiet s); [apply quiet_blur_timeout | exact Hinv].
  - destruct (nth_error (fetchCalls s) n); [|exact Hinv].
    apply (epochs_bounded_quiet s); [apply quiet_fetch_update | exact Hinv].
  - destruct (nth_error (children (container (self s))) n) as [el|];
      [|exact Hinv].
    destruct (click el); [|exact Hinv].
    apply (epochs_bounded_quiet s); [apply quiet_click_listener | exact Hinv].
  - apply (epochs_bounded_quiet s); [apply quiet_destroy | exact Hinv].
Qed.

Lemma epochs_bounded_run (heap : Heap) (es : list Event) (s : World) :
  epochs_bounded s -> epochs_bounded (run heap s es).
Proof.
  unfold run. revert s. induction es as [|e es IH]; intros s Hinv;
    [exact Hinv|].
  cbn [fold_left]. apply IH. now apply epochs_bounded_step.
Qed.

Lemma epochs_bounded_construct (settings : Settings.t) :
  epochs_bounded (construct settings).
Proof. intros n c Hn. cbn in Hn. now destruct n. Qed.

(** ** [selected] stays in [items] along every run *)

Lemma selected_in_items_startFetch (isFocus : bool) (s : World) :
  selected_in_items (self s) ->
  selected_in_items (self (startFetch isFocus s)).
Proof.
  intro Hinv. unfold startFetch.
  match goal with |- context [if ?c then _ else _] => destruct c end.
  - exact Hinv.
  - apply selected_in_items_clear.
Qed.

Lemma selected_in_items_updateIfDisplayed (heap : Heap) (w : Dropcomplete) :
  selected_in_items w -> selected_in_items (updateIfDisplayed heap w).
Proof.
  intro Hinv. unfold updateIfDisplayed.
  destruct (containerDisplayed w);
    [now apply selected_in_items_update | exact Hinv].
Qed.

Lemma selected_in_items_run_callback (heap : Heap) (cb : Callback)
    (event : DomEvent) (s : World) :
  selected_in_items (self s) ->
  selected_in_items (self (run_callback heap cb event s)).
Proof.
  intro Hinv. destruct cb as [[]|h]; cbn [run_callback]; try exact Hinv.
  - unfold keydownEventHandler.
    destruct (String.eqb (key event) "ArrowUp"
              || String.eqb (key event) "ArrowDown"
              || String.eqb (key event) "Escape").
    + destruct (String.eqb (key event) "Escape");
        [apply selected_in_items_clear|].
      destruct (negb (containerDisplayed (self s))
                || (Z.of_nat (List.length (items (self s))) <? 1)%Z);
        [exact Hinv|].
      destruct (String.eqb (key event) "ArrowUp"); cbn [self on_self];
        apply selected_in_items_update;
        [now apply selected_in_items_selectPrev
        | now apply selected_in_items_selectNext].
    + destruct (String.eqb (key event) "Enter"); [|exact Hinv].
      destruct (selected (self s)); [|exact Hinv].
      apply selected_in_items_clear.
  - unfold keyupEventHandler.
    destruct (existsb _ ignores); [exact Hinv|].
    destruct (String.eqb (key event) "Fn"); [exact Hinv|].
    destruct (String.eqb (key event) "ArrowDown"
              && containerDisplayed (self s)); [exact Hinv|].
    now apply selected_in_items_startFetch.
  - unfold focusEventHandler.
    destruct (showOnFocus (self s)) as [[|]|]; try exact Hinv.
    now apply selected_in_items_startFetch.
  - now apply selected_in_items_updateIfDisplayed.
  - unfold scrollEventHandler. destruct (negb (targetIsContainer event));
      [|exact Hinv].
    now apply selected_in_items_updateIfDisplayed.
Qed.

Lemma selected_in_items_step (heap : Heap) (s : World) (e : Event) :
  selected_in_items (self s) -> selected_in_items (self (step heap s e)).
Proof.
  intro Hinv. destruct e as [target type event|i|a|n r|n|]; cbn [step].
  - unfold dispatch. generalize (listeners s) as ls. intro ls.
    revert s Hinv. induction ls as [|l ls IH]; intros s Hinv; [exact Hinv|].
    cbn [fold_left]. apply IH.
    destruct (EventTarget_eqb (l_target l) target
              && String.eqb (l_type l) type);
      [now apply selected_in_items_run_callback | exact Hinv].
  - exact Hinv.
  - unfold blur_timeout. destruct (blurTimers s); [exact Hinv|].
    destruct a; cbn [negb]; [exact Hinv | apply selected_in_items_clear].
  - destruct (nth_error (fetchCalls s) n); [|exact Hinv].
    now apply selected_in_items_fetch_update.
  - destruct (nth_error (children (container (self s))) n) as [el|];
      [|exact Hinv].
    destruct (click el); [|exact Hinv].
    apply selected_in_items_clear.
  - apply selected_in_items_clear.
Qed.

(** In every state that a constructed widget can reach, [selected], if
    present, is one of the objects in [items]. *)
Lemma selected_in_items_reachable (heap : Heap) (settings : Settings.t)
    (es : list Event) :
  selected_in_items (self (run heap (construct settings) es)).
Proof.
  unfold run.
  assert (H0 : selected_in_items (self (construct settings))) by exact I.
  revert H0. generalize (construct settings) as s. intro s. revert s.
  induction es as [|e es IH]; intros s Hinv; [exact Hinv|].
  cbn [fold_left]. apply IH. now apply selected_in_items_step.
Qed.

(** ** Claims on fetching *)

Lemma first_or_none (its : list ref) :
  (if (Z.of_nat (List.length its) <? 1)%Z then None else item_at its 0)
  = nth_error its 0.
Proof.
  destruct its as [|a l]; [reflexivity|].
  assert (H : (Z.of_nat (List.length (a :: l)) <? 1)%Z = false)
    by (apply length_ge_1; discriminate).
  now rewrite H.
Qed.


(** Two fetches are started, the second before the first completes.  The
    first then completes with the item 1 and changes nothing; the second
    completes with the items 2 and 3, which are shown. *)
Example superseded_fetch_example :
  let typed :=
    [SetInput (mkInput "ab" (Some 2));
     Dispatch TInput "keyup" (mkEvent "b" false);
     SetInput (mkInput "abc" (Some 3));
     Dispatch TInput "keyup" (mkEvent "c" false)] in
  let s := run sample_heap (construct sample_settings) typed in
  let s1 := step sample_heap s (FetchResult 0 (Some [1])) in
  let s2 := step sample_heap s1 (FetchResult 1 (Some [2; 3])) in
  s1 = s
  /\ items (self s2) = [2; 3]
  /\ selected (self s2) = Some 2
  /\ inputValue (self s2) = "abc"
  /\ parentNode (container (self s2)) = true.
Proof. vm_compute. repeat split; reflexivity. Qed.


(** C7.  [startFetch] invokes [fetch], once, with the input's text, the
    result callback of the new counter value, the trigger and the cursor
    position, exactly when the trigger is a focus or the length of the text
    is at least [minLen]; in that case it changes nothing but the counter.
    Otherwise it does not invoke [fetch] and clears the widget: no items, no
    input value, no selection, and the overlay detached.  [minLen] is 2 when
    the settings give no [minLength]. *)
Theorem startFetch_gate (isFocus : bool) (s : World) :
  let inputText := value (input (self s)) in
  let passes :=
    (Z.of_nat (String.length inputText) >=? minLen (self s))%Z || isFocus in
  (passes = true ->
   fetchCalls (startFetch isFocus s)
   = fetchCalls s
     ++ [mkFetchCall inputText (keypressCounter (self s) + 1) isFocus
           (match selectionStart (input (self s)) with
            | Some n => n
            | None => 0
            end)]
   /\ self (startFetch isFocus s)
      = set_keypressCounter (keypressCounter (self s) + 1) (self s))
  /\ (passes = false ->
      fetchCalls (startFetch isFocus s) = fetchCalls s
      /\ items (self (startFetch isFocus s)) = []
      /\ inputValue (self (startFetch isFocus s)) = ""
      /\ selected (self (startFetch isFocus s)) = None
      /\ parentNode (container (self (startFetch isFocus s))) = false)
  /\ (forall settings,
        Settings.minLength settings = None ->
        minLen (self (construct settings)) = 2%Z).
Proof.
  cbn zeta. split; [|split].
  - intro Hp. unfold startFetch.
    cbn [self on_self input minLen set_keypressCounter keypressCounter].
    rewrite Hp. split; reflexivity.
  - intro Hp. unfold startFetch.
    cbn [self on_self input minLen set_keypressCounter keypressCounter].
    rewrite Hp. cbn [self on_self fetchCalls].
    match goal with |- context [clear ?x] =>
      destruct (clear_fields x) as (H1 & H2 & H3 & _ & H5 & _) end.
    rewrite H1, H2, H3, H5. repeat split; reflexivity.
  - intros settings Hm. cbn. now rewrite Hm.
Qed.

Lemma startFetch_gate_witness :
  fetchCalls
    (startFetch false
       (on_self (set_input (mkInput "ab" (Some 2)))
          (construct sample_settings)))
  = [mkFetchCall "ab" 1 false 2]
  /\ fetchCalls
       (startFetch false
          (on_self (set_input (mkInput "a" (Some 1)))
             (construct sample_settings)))
     = []
  /\ minLen (self (construct sample_settings)) = 2%Z.
Proof.
  split; [|split].
  - apply (proj1 (startFetch_gate false
                    (on_self (set_input (mkInput "ab" (Some 2)))
                       (construct sample_settings)))).
    reflexivity.
  - apply (proj1 (proj2 (startFetch_gate false
                           (on_self (set_input (mkInput "a" (Some 1)))
                              (construct sample_settings))))).
    reflexivity.
  - apply (proj2 (proj2 (startFetch_gate false (construct sample_settings)))).
    reflexivity.
Defined.

(** ** Destruction *)

(** C2.  What [destroy] does on the code: the callbacks it passes to
    [removeEventListener] are the methods, not the arrow functions that the
    constructor registered, so no listener is removed.  After
    [destroy()], typing "ab" and releasing a key still invokes [fetch], and
    when that fetch completes with one item the overlay is filled and
    attached to the document. *)
Theorem destroy_removes_no_listener :
  (forall settings : Settings.t,
     listeners (destroy (construct settings))
     = listeners (construct settings)
     /\ List.length (listeners (destroy (construct settings))) = 6)
  /\ (let s :=
        run sample_heap (construct sample_settings)
          [Destroy;
           SetInput (mkInput "ab" (Some 2));
           Dispatch TInput "keyup" (mkEvent "b" false)] in
      fetchCalls s = [mkFetchCall "ab" 2 false 2]
      /\ let s' := step sample_heap s (FetchResult 0 (Some [1])) in
         parentNode (container (self s')) = true
         /\ map view (children (container (self s'))) = [inr "G1"; inl 1]).
Proof.
  split.
  - intro settings. split; reflexivity.
  - vm_compute. repeat split; reflexivity.
Qed.

(** * Further properties *)

(** ** Navigation as a rotation *)

Lemma items_selectNext (w : Dropcomplete) : items (selectNext w) = items w.
Proof. now rewrite selectNext_frame. Qed.

Lemma items_selectPrev (w : Dropcomplete) : items (selectPrev w) = items w.
Proof. now rewrite selectPrev_frame. Qed.

(** On a list without repeated objects [selectNext] moves the selection from
    index [i] to index [i + 1], and from the last index to index 0. *)
Lemma selectNext_moves (w : Dropcomplete) (x : ref) (i : nat) :
  NoDup (items w) ->
  nth_error (items w) i = Some x ->
  selected w = Some x ->
  selected (selectNext w)
  = nth_error (items w) ((i + 1) mod List.length (items w)).
Proof.
  intros Hnd Hi Hsel.
  assert (Hilen : i < List.length (items w))
    by (apply nth_error_Some; congruence).
  destruct (Nat.eq_dec i (List.length (items w) - 1)) as [E|E].
  - replace (i + 1) with (List.length (items w)) by lia.
    rewrite Nat.Div0.mod_same.
    apply selectNext_wrap.
    + intro C. rewrite C in Hilen. simpl in Hilen. lia.
    + right. now rewrite Hsel, <- E.
  - rewrite Nat.mod_small by lia. rewrite Nat.add_1_r.
    apply (selectNext_inner w x i); try assumption.
    + intro C. apply E. exact (NoDup_nth_error_unique _ _ _ _ Hnd Hi C).
    + intros j Hj C.
      pose proof (NoDup_nth_error_unique _ _ _ _ Hnd Hi C). lia.
Qed.

(** On a list without repeated objects [selectPrev] moves the selection from
    index [i] to index [i - 1], and from index 0 to the last index. *)
Lemma selectPrev_moves (w : Dropcomplete) (x : ref) (i : nat) :
  NoDup (items w) ->
  nth_error (items w) i = Some x ->
  selected w = Some x ->
  selected (selectPrev w)
  = nth_error (items w)
      ((i + (List.length (items w) - 1)) mod List.length (items w)).
Proof.
  intros Hnd Hi Hsel.
  assert (Hilen : i < List.length (items w))
    by (apply nth_error_Some; congruence).
  destruct i as [|i].
  - rewrite Nat.add_0_l, Nat.mod_small by lia.
    apply selectPrev_first.
    + intro C. rewrite C in Hilen. simpl in Hilen. lia.
    + now rewrite Hsel.
  - replace (S i + (List.length (items w) - 1))
      with (i + 1 * List.length (items w)) by lia.
    rewrite Nat.Div0.mod_add, Nat.mod_small by lia.
    rewrite (selectPrev_inner w x (S i)); try assumption.
    + now rewrite Nat.sub_1_r.
    + intro C. pose proof (NoDup_nth_error_unique _ _ _ _ Hnd Hi C). lia.
    + intros j Hj C.
      pose proof (NoDup_nth_error_unique _ _ _ _ Hnd Hi C). lia.
Qed.

Lemma iter_selectNext_frame (k : nat) (w : Dropcomplete) :
  Nat.iter k selectNext w
  = set_selected (selected (Nat.iter k selectNext w)) w.
Proof.
  induction k as [|k IH]; [symmetry; apply set_selected_same|].
  rewrite Nat.iter_succ, selectNext_frame. rewrite IH at 2.
  apply set_selected_twice.
Qed.

Lemma iter_selectPrev_frame (k : nat) (w : Dropcomplete) :
  Nat.iter k selectPrev w
  = set_selected (selected (Nat.iter k selectPrev w)) w.
Proof.
  induction k as [|k IH]; [symmetry; apply set_selected_same|].
  rewrite Nat.iter_succ, selectPrev_frame. rewrite IH at 2.
  apply set_selected_twice.
Qed.

(** [k] calls of [selectNext] move the selection [k] places forward, round
    the list. *)
Lemma iter_selectNext_moves (w : Dropcomplete) (x : ref) (i k : nat) :
  NoDup (items w) ->
  nth_error (items w) i = Some x ->
  selected w = Some x ->
  selected (Nat.iter k selectNext w)
  = nth_error (items w) ((i + k) mod List.length (items w)).
Proof.
  intros Hnd Hi Hsel.
  assert (Hilen : i < List.length (items w))
    by (apply nth_error_Some; congruence).
  induction k as [|k IH]; [|rewrite Nat.iter_succ].
  - cbn. rewrite Nat.add_0_r, Nat.mod_small by lia. now rewrite Hsel.
  - set (j := (i + k) mod List.length (items w)) in *.
    assert (Hj : j < List.length (items w))
      by (apply Nat.mod_upper_bound; lia).
    destruct (nth_error (items w) j) as [y|] eqn:Hy.
    2:{ apply nth_error_None in Hy. lia. }
    assert (Hits : items (Nat.iter k selectNext w) = items w)
      by (rewrite iter_selectNext_frame; reflexivity).
    rewrite (selectNext_moves _ y j); rewrite ?Hits; try assumption.
    unfold j. rewrite Nat.Div0.add_mod_idemp_l. f_equal. f_equal. lia.
Qed.

(** [k] calls of [selectPrev] move the selection [k] places backward, round
    the list. *)
Lemma iter_selectPrev_moves (w : Dropcomplete) (x : ref) (i k : nat) :
  NoDup (items w) ->
  nth_error (items w) i = Some x ->
  selected w = Some x ->
  selected (Nat.iter k selectPrev w)
  = nth_error (items w)
      ((i + k * (List.length (items w) - 1)) mod List.length (items w)).
Proof.
  intros Hnd Hi Hsel.
  assert (Hilen : i < List.length (items w))
    by (apply nth_error_Some; congruence).
  induction k as [|k IH]; [|rewrite Nat.iter_succ].
  - cbn. rewrite Nat.add_0_r, Nat.mod_small by lia. now rewrite Hsel.
  - set (j := (i + k * (List.length (items w) - 1))
              mod List.length (items w)) in *.
    assert (Hj : j < List.length (items w))
      by (apply Nat.mod_upper_bound; lia).
    destruct (nth_error (items w) j) as [y|] eqn:Hy.
    2:{ apply nth_error_None in Hy. lia. }
    assert (Hits : items (Nat.iter k selectPrev w) = items w)
      by (rewrite iter_selectPrev_frame; reflexivity).
    rewrite (selectPrev_moves _ y j); rewrite ?Hits; try assumption.
    unfold j. rewrite Nat.Div0.add_mod_idemp_l. f_equal. f_equal. lia.
Qed.

(** X1.  On a list without repeated objects, with the object at index [i]
    selected, [selectNext] selects the object at index [(i + 1) mod n], where
    [n] is the length of the list, and changes nothing else. *)
Theorem selectNext_rotates (w : Dropcomplete) (x : ref) (i : nat) :
  NoDup (items w) ->
  nth_error (items w) i = Some x ->
  selected w = Some x ->
  selectNext w
  = set_selected (nth_error (items w) ((i + 1) mod List.length (items w))) w.
Proof.
  intros Hnd Hi Hsel.
  rewrite selectNext_frame. f_equal. now apply (selectNext_moves w x i).
Qed.

Lemma selectNext_rotates_witness :
  selectNext (sample_widget [5; 6; 7] (Some 7))
  = set_selected (Some 5) (sample_widget [5; 6; 7] (Some 7)).
Proof.
  apply (selectNext_rotates (sample_widget [5; 6; 7] (Some 7)) 7 2).
  - simpl. repeat constructor; simpl; intuition discriminate.
  - reflexivity.
  - reflexivity.
Defined.

(** X2.  On a list without repeated objects, with the object at index [i]
    selected, [selectPrev] selects the object at index [(i + n - 1) mod n],
    where [n] is the length of the list, and changes nothing else. *)
Theorem selectPrev_rotates (w : Dropcomplete) (x : ref) (i : nat) :
  NoDup (items w) ->
  nth_error (items w) i = Some x ->
  selected w = Some x ->
  selectPrev w
  = set_selected
      (nth_error (items w)
         ((i + (List.length (items w) - 1)) mod List.length (items w))) w.
Proof.
  intros Hnd Hi Hsel.
  rewrite selectPrev_frame. f_equal. now apply (selectPrev_moves w x i).
Qed.

Lemma selectPrev_rotates_witness :
  selectPrev (sample_widget [5; 6; 7] (Some 5))
  = set_selected (Some 7) (sample_widget [5; 6; 7] (Some 5)).
Proof.
  apply (selectPrev_rotates (sample_widget [5; 6; 7] (Some 5)) 5 0).
  - simpl. repeat constructor; simpl; intuition discriminate.
  - reflexivity.
  - reflexivity.
Defined.

(** X3.  Full wraparound: on a list of [n] objects without repetition, [n]
    calls of [selectNext] from any selected item of the list come back to the
    widget they started from, and so do [n] calls of [selectPrev]. *)
Theorem select_full_cycle (w : Dropcomplete) (x : ref) :
  NoDup (items w) ->
  In x (items w) ->
  selected w = Some x ->
  Nat.iter (List.length (items w)) selectNext w = w
  /\ Nat.iter (List.length (items w)) selectPrev w = w.
Proof.
  intros Hnd Hin Hsel.
  destruct (In_nth_error _ _ Hin) as [i Hi].
  assert (Hilen : i < List.length (items w))
    by (apply nth_error_Some; congruence).
  split.
  - rewrite iter_selectNext_frame.
    rewrite (iter_selectNext_moves w x i) by assumption.
    replace (i + List.length (items w))
      with (i + 1 * List.length (items w)) by lia.
    rewrite Nat.Div0.mod_add, Nat.mod_small by lia.
    rewrite Hi, <- Hsel. apply set_selected_same.
  - rewrite iter_selectPrev_frame.
    rewrite (iter_selectPrev_moves w x i) by assumption.
    replace (i + List.length (items w) * (List.length (items w) - 1))
      with (i + (List.length (items w) - 1) * List.length (items w)) by lia.
    rewrite Nat.Div0.mod_add, Nat.mod_small by lia.
    rewrite Hi, <- Hsel. apply set_selected_same.
Qed.

Lemma select_full_cycle_witness :
  Nat.iter 3 selectNext (sample_widget [5; 6; 7] (Some 6))
  = sample_widget [5; 6; 7] (Some 6).
Proof.
  apply (select_full_cycle (sample_widget [5; 6; 7] (Some 6)) 6).
  - simpl. repeat constructor; simpl; intuition discriminate.
  - simpl. auto.
  - reflexivity.
Defined.

(** X4.  The round trip in the other order: on a list without repeated
    objects and from a selection that is in the list, [selectPrev] followed
    by [selectNext] returns the widget to where it started. *)
Theorem selectPrev_selectNext_roundtrip (w : Dropcomplete) (x : ref) :
  NoDup (items w) ->
  In x (items w) ->
  selected w = Some x ->
  selectNext (selectPrev w) = w.
Proof.
  intros Hnd Hin Hsel.
  destruct (In_nth_error _ _ Hin) as [i Hi].
  assert (Hilen : i < List.length (items w))
    by (apply nth_error_Some; congruence).
  set (j := (i + (List.length (items w) - 1)) mod List.length (items w)).
  assert (Hj : j < List.length (items w))
    by (apply Nat.mod_upper_bound; lia).
  assert (Hprev : selected (selectPrev w) = nth_error (items w) j)
    by (now apply (selectPrev_moves w x i)).
  destruct (nth_error (items w) j) as [y|] eqn:Hy.
  2:{ apply nth_error_None in Hy. lia. }
  rewrite selectNext_frame.
  rewrite (selectNext_moves _ y j);
    rewrite ?items_selectPrev; try assumption.
  unfold j. rewrite Nat.Div0.add_mod_idemp_l.
  replace (i + (List.length (items w) - 1) + 1)
    with (i + 1 * List.length (items w)) by lia.
  rewrite Nat.Div0.mod_add, Nat.mod_small by lia.
  rewrite selectPrev_frame, set_selected_twice, Hi, <- Hsel.
  apply set_selected_same.
Qed.

Lemma selectPrev_selectNext_roundtrip_witness :
  selectNext (selectPrev (sample_widget [5; 6; 7] (Some 5)))
  = sample_widget [5; 6; 7] (Some 5).
Proof.
  apply (selectPrev_selectNext_roundtrip (sample_widget [5; 6; 7] (Some 5)) 5).
  - simpl. repeat constructor; simpl; intuition discriminate.
  - simpl. auto.
  - reflexivity.
Defined.

(** ** Re-rendering *)

Lemma update_loop_ext (heap : Heap) (w w' : Dropcomplete) (its : list ref)
    (p : string) :
  render w' = render w ->
  renderGroup w' = renderGroup w ->
  selected w' = selected w ->
  update_loop heap w' its p = update_loop heap w its p.
Proof.
  intros Hr Hg Hs. revert p. induction its as [|item its IH]; intro p;
    [reflexivity|].
  cbn [update_loop]. now rewrite Hr, Hg, Hs, IH.
Qed.

Lemma rendering_ext (heap : Heap) (w w' : Dropcomplete) :
  render w' = render w ->
  renderGroup w' = renderGroup w ->
  selected w' = selected w ->
  items w' = items w ->
  emptyMsg w' = emptyMsg w ->
  rendering heap w' = rendering heap w.
Proof.
  intros Hr Hg Hs Hi He. unfold rendering.
  now rewrite Hi, He, (update_loop_ext heap w w') by assumption.
Qed.

(** When there is something to show, [update] replaces the container by the
    attached rendering and touches no other field. *)
Lemma update_shows (heap : Heap) (w : Dropcomplete) :
  items w <> [] \/ truthy_string (emptyMsg w) = true ->
  update heap w = set_container (mkContainer (rendering heap w) true) w.
Proof.
  intro H. unfold update, rendering.
  cbn [items set_container container children parentNode app emptyMsg].
  rewrite update_loop_set_container.
  destruct (Z.of_nat (List.length (items w)) <? 1)%Z eqn:Hlen; cbn [andb].
  - destruct (truthy_string (emptyMsg w)) eqn:Ht.
    + unfold attach, appendChild.
      cbn [set_container container children parentNode].
      destruct (parentNode (container w)); reflexivity.
    + apply length_lt_1 in Hlen. destruct H as [H|H]; congruence.
  - rewrite app_nil_r. unfold attach.
    cbn [set_container container children parentNode].
    destruct (parentNode (container w)); reflexivity.
Qed.

(** When there is nothing to show, [update] empties the container and
    clears the widget. *)
Lemma update_clears (heap : Heap) (w : Dropcomplete) :
  items w = [] ->
  truthy_string (emptyMsg w) = false ->
  update heap w
  = clear (set_container (mkContainer [] (parentNode (container w))) w).
Proof.
  intros Hi Ht. unfold update.
  cbn [items set_container emptyMsg]. rewrite Hi, Ht. reflexivity.
Qed.

Lemma update_cases (heap : Heap) (w : Dropcomplete) :
  (items w <> [] \/ truthy_string (emptyMsg w) = true)
  \/ (items w = [] /\ truthy_string (emptyMsg w) = false).
Proof.
  destruct (items w); [|left; left; discriminate].
  destruct (truthy_string (emptyMsg w)); [left; now right | now right].
Qed.

Lemma overlay_consistent_clear (heap : Heap) (w : Dropcomplete) :
  overlay_consistent heap (clear w).
Proof.
  unfold overlay_consistent.
  destruct (clear_fields w) as (H1 & H2 & H3 & _ & H5 & _).
  rewrite H5. now rewrite H1, H2, H3.
Qed.

(** [update] always leaves the overlay in agreement with the fields. *)
Lemma overlay_consistent_update (heap : Heap) (w : Dropcomplete) :
  overlay_consistent heap (update heap w).
Proof.
  destruct (update_cases heap w) as [H|[Hi Ht]].
  - rewrite update_shows by exact H. unfold overlay_consistent.
    cbn [container set_container parentNode children items emptyMsg].
    split; [exact H|]. symmetry. now apply rendering_ext.
  - rewrite update_clears by assumption. apply overlay_consistent_clear.
Qed.

Lemma set_container_same (w : Dropcomplete) : set_container (container w) w = w.
Proof. now destruct w. Qed.

(** On a widget whose attached overlay agrees with its fields, [update]
    changes nothing. *)
Lemma update_consistent (heap : Heap) (w : Dropcomplete) :
  overlay_consistent heap w ->
  parentNode (container w) = true ->
  update heap w = w.
Proof.
  intros Hc Hp. unfold overlay_consistent in Hc. rewrite Hp in Hc.
  destruct Hc as [H Hch].
  rewrite update_shows by exact H.
  rewrite <- Hch, <- Hp.
  destruct w as [? ? ? ? ? ? ? [ch pn] ? ? ? ?]. reflexivity.
Qed.

(** X5.  Re-rendering is idempotent under the renderers of the class, which
    build a new node on every call: [update] applied to what [update]
    produced changes nothing, provided there is something to show, that is
    [items] is not empty or [emptyMsg] is truthy.  In that case [update]
    changes no field of the widget other than the container.  An overriding
    renderer that hands back a node it returned before is not covered. *)
Theorem update_idempotent (heap : Heap) (w : Dropcomplete) :
  render w = default_render ->
  renderGroup w = default_renderGroup ->
  items w <> [] \/ truthy_string (emptyMsg w) = true ->
  update heap (update heap w) = update heap w
  /\ set_container (container w) (update heap w) = w.
Proof.
  intros _ _ H. split.
  - apply update_consistent; [apply overlay_consistent_update|].
    now rewrite update_shows.
  - rewrite update_shows by exact H. now destruct w.
Qed.

Lemma update_idempotent_witness :
  update sample_heap (update sample_heap (sample_widget [1; 2; 3] (Some 1)))
  = update sample_heap (sample_widget [1; 2; 3] (Some 1)).
Proof.
  apply (update_idempotent sample_heap (sample_widget [1; 2; 3] (Some 1))
           eq_refl eq_refl).
  left. discriminate.
Defined.

(** ** Invariants of the steps *)

Section StepInvariant.

Variable heap : Heap.

(** A property of the widget object that each mutation used by the handlers
    keeps. *)
Variable P : Dropcomplete -> Prop.

Hypothesis P_clear : forall w, P w -> P (clear w).
Hypothesis P_update : forall w, P w -> P (update heap w).
Hypothesis P_selectPrev : forall w, P w -> P (update heap (selectPrev w)).
Hypothesis P_selectNext : forall w, P w -> P (update heap (selectNext w)).
Hypothesis P_input : forall i w, P w -> P (set_input i w).
Hypothesis P_counter :
  forall w, P w -> P (set_keypressCounter (keypressCounter w + 1)%Z w).
Hypothesis P_adopt :
  forall its txt w,
    P w ->
    P (update heap
         (set_selected
            (if (Z.of_nat (List.length its) <? 1)%Z then None
             else item_at its 0)
            (set_inputValue txt (set_items its w)))).

Lemma startFetch_invariant (isFocus : bool) (s : World) :
  P (self s) -> P (self (startFetch isFocus s)).
Proof.
  intro H. unfold startFetch.
  match goal with |- context [if ?c then _ else _] => destruct c end;
    cbn [self call_fetch on_self]; auto.
Qed.

Lemma run_callback_invariant (cb : Callback) (event : DomEvent) (s : World) :
  P (self s) -> P (self (run_callback heap cb event s)).
Proof.
  intro H. destruct cb as [[]|h]; cbn [run_callback]; try exact H.
  - unfold keydownEventHandler.
    destruct (String.eqb (key event) "ArrowUp"
              || String.eqb (key event) "ArrowDown"
              || String.eqb (key event) "Escape").
    + destruct (String.eqb (key event) "Escape");
        [cbn [self on_self]; auto|].
      destruct (negb (containerDisplayed (self s))
                || (Z.of_nat (List.length (items (self s))) <? 1)%Z);
        [exact H|].
      destruct (String.eqb (key event) "ArrowUp"); cbn [self on_self]; auto.
    + destruct (String.eqb (key event) "Enter"); [|exact H].
      destruct (selected (self s)); [|exact H].
      cbn [self on_self call_onSelect]. auto.
  - unfold keyupEventHandler.
    destruct (existsb _ ignores); [exact H|].
    destruct (String.eqb (key event) "Fn"); [exact H|].
    destruct (String.eqb (key event) "ArrowDown"
              && containerDisplayed (self s)); [exact H|].
    now apply startFetch_invariant.
  - unfold focusEventHandler.
    destruct (showOnFocus (self s)) as [[|]|]; try exact H.
    now apply startFetch_invariant.
  - cbn [resizeEventHandler self on_self]. unfold updateIfDisplayed.
    destruct (containerDisplayed (self s)); auto.
  - unfold scrollEventHandler. destruct (negb (targetIsContainer event));
      [|exact H].
    cbn [self on_self]. unfold updateIfDisplayed.
    destruct (containerDisplayed (self s)); auto.
Qed.

Lemma step_invariant (s : World) (e : Event) :
  P (self s) -> P (self (step heap s e)).
Proof.
  intro H. destruct e as [target type event|i|a|n r|n|]; cbn [step].
  - unfold dispatch. generalize (listeners s) as ls. intro ls.
    revert s H. induction ls as [|l ls IH]; intros s H; [exact H|].
    cbn [fold_left]. apply IH.
    destruct (EventTarget_eqb (l_target l) target
              && String.eqb (l_type l) type);
      [now apply run_callback_invariant | exact H].
  - cbn [self on_self]. auto.
  - unfold blur_timeout. destruct (blurTimers s); [exact H|].
    destruct a; cbn [negb self on_self set_blurTimers]; auto.
  - destruct (nth_error (fetchCalls s) n) as [c|]; [|exact H].
    unfold fetch_update. destruct r as [its|]; [|exact H].
    destruct (keypressCounter (self s) =? savedKeypressCounter c)%Z;
      [|exact H].
    cbn [self on_self]. auto.
  - destruct (nth_error (children (container (self s))) n) as [el|];
      [|exact H].
    destruct (click el); [|exact H].
    cbn [click_listener self on_self call_onSelect]. auto.
  - cbn [destroy self on_self set_listeners]. auto.
Qed.

Lemma run_invariant (s : World) (es : list Event) :
  P (self s) -> P (self (run heap s es)).
Proof.
  unfold run. revert s. induction es as [|e es IH]; intros s H; [exact H|].
  cbn [fold_left]. apply IH. now apply step_invariant.
Qed.

End StepInvariant.

(** ** A selection whenever there are items *)

Lemma selectNext_loop_bound (its : list ref) (sel : option ref) (n i : nat) :
  selectNext_loop its sel n (Z.of_nat i) = sel
  \/ exists j, selectNext_loop its sel n (Z.of_nat i) = nth_error its j
               /\ j <= i + n.
Proof.
  revert i. induction n as [|n IH]; intro i; [now left|].
  cbn [selectNext_loop].
  replace (Z.of_nat i + 1)%Z with (Z.of_nat (S i)) by lia.
  destruct (same_ref sel (item_at its (Z.of_nat i))).
  - right. exists (S i). split; [apply item_at_of_nat | lia].
  - destruct (IH (S i)) as [E|[j [E Hj]]]; [now left|].
    right. exists j. split; [exact E | lia].
Qed.

Lemma selectPrev_some (w : Dropcomplete) :
  items w <> [] -> selected w <> None -> selected (selectPrev w) <> None.
Proof.
  intros Hne Hsel. unfold selectPrev.
  apply length_ge_1 in Hne as Hlen. rewrite Hlen.
  assert (Hpos : 0 < List.length (items w))
    by (destruct (items w); [congruence | simpl; lia]).
  destruct (same_ref (selected w) (item_at (items w) 0));
    cbn [selected set_selected].
  - replace (Z.of_nat (List.length (items w)) - 1)%Z
      with (Z.of_nat (List.length (items w) - 1)) by lia.
    rewrite item_at_of_nat. apply nth_error_Some. lia.
  - destruct (selectPrev_loop_cases (items w) (selected w)
                (Z.to_nat (Z.of_nat (List.length (items w)) - 1)))
      as [E|[i [E Hi]]]; rewrite E; [exact Hsel|].
    apply nth_error_Some. lia.
Qed.

Lemma selectNext_some (w : Dropcomplete) :
  items w <> [] -> selected w <> None -> selected (selectNext w) <> None.
Proof.
  intros Hne Hsel. unfold selectNext.
  apply length_ge_1 in Hne as Hlen. rewrite Hlen.
  assert (Hpos : 0 < List.length (items w))
    by (destruct (items w); [congruence | simpl; lia]).
  destruct (negb (truthy_ref (selected w))
            || same_ref (selected w)
                 (item_at (items w) (Z.of_nat (List.length (items w)) - 1)));
    cbn [selected set_selected].
  - change 0%Z with (Z.of_nat 0). rewrite item_at_of_nat.
    apply nth_error_Some. lia.
  - change 0%Z with (Z.of_nat 0).
    destruct (selectNext_loop_bound (items w) (selected w)
                (Z.to_nat (Z.of_nat (List.length (items w)) - 1)) 0)
      as [E|[j [E Hj]]]; rewrite E; [exact Hsel|].
    apply nth_error_Some. lia.
Qed.

Lemma selection_present_clear (w : Dropcomplete) : selection_present (clear w).
Proof.
  unfold selection_present.
  destruct (clear_fields w) as (H & _). now rewrite H.
Qed.

Lemma selection_present_update (heap : Heap) (w : Dropcomplete) :
  selection_present w -> selection_present (update heap w).
Proof.
  intro H. unfold selection_present.
  destruct (update_fields heap w) as [(_ & H1 & _)|(H1 & _ & H3 & _)].
  - now rewrite H1.
  - now rewrite H1, H3.
Qed.

Lemma selection_present_selectPrev (w : Dropcomplete) :
  selection_present w -> selection_present (selectPrev w).
Proof.
  intros H Hne. rewrite items_selectPrev in Hne.
  apply selectPrev_some; auto.
Qed.

Lemma selection_present_selectNext (w : Dropcomplete) :
  selection_present w -> selection_present (selectNext w).
Proof.
  intros H Hne. rewrite items_selectNext in Hne.
  apply selectNext_some; auto.
Qed.

Lemma selection_present_adopt (its : list ref) (txt : string)
    (w : Dropcomplete) :
  selection_present
    (set_selected
       (if (Z.of_nat (List.length its) <? 1)%Z then None else item_at its 0)
       (set_inputValue txt (set_items its w))).
Proof.
  unfold selection_present. cbn [items selected set_selected set_inputValue
                                 set_items].
  intro Hne. rewrite first_or_none. destruct its; [congruence | discriminate].
Qed.

Lemma selection_present_reachable (heap : Heap) (settings : Settings.t)
    (es : list Event) :
  selection_present (self (run heap (construct settings) es)).
Proof.
  apply run_invariant.
  - intros w _. apply selection_present_clear.
  - intros w. apply selection_present_update.
  - intros w H. now apply selection_present_update, selection_present_selectPrev.
  - intros w H. now apply selection_present_update, selection_present_selectNext.
  - intros i w H. exact H.
  - intros w H. exact H.
  - intros its txt w _.
    apply selection_present_update, selection_present_adopt.
  - intro C. now contradiction C.
Qed.

(** ** The overlay agrees with the fields along every run *)

Lemma overlay_consistent_frame (heap : Heap) (w w' : Dropcomplete) :
  container w' = container w ->
  items w' = items w ->
  inputValue w' = inputValue w ->
  selected w' = selected w ->
  emptyMsg w' = emptyMsg w ->
  render w' = render w ->
  renderGroup w' = renderGroup w ->
  overlay_consistent heap w -> overlay_consistent heap w'.
Proof.
  intros Hc Hi Hv Hs He Hr Hg H. unfold overlay_consistent in *.
  rewrite Hc, Hi, Hv, Hs, He, (rendering_ext heap w w') by assumption.
  exact H.
Qed.

Lemma overlay_consistent_reachable (heap : Heap) (settings : Settings.t)
    (es : list Event) :
  overlay_consistent heap (self (run heap (construct settings) es)).
Proof.
  apply run_invariant.
  - intros w _. apply overlay_consistent_clear.
  - intros w _. apply overlay_consistent_update.
  - intros w _. apply overlay_consistent_update.
  - intros w _. apply overlay_consistent_update.
  - intros i w. now apply overlay_consistent_frame.
  - intros w. now apply overlay_consistent_frame.
  - intros its txt w _. apply overlay_consistent_update.
  - cbn. repeat split; reflexivity.
Qed.

(** ** The configuration is fixed at construction *)

Lemma config_reachable (heap : Heap) (settings : Settings.t)
    (es : list Event) :
  let w0 := self (construct settings) in
  let w := self (run heap (construct settings) es) in
  render w = render w0 /\ renderGroup w = renderGroup w0
  /\ emptyMsg w = emptyMsg w0 /\ minLen w = minLen w0
  /\ showOnFocus w = showOnFocus w0.
Proof.
  cbn zeta.
  apply (run_invariant heap
           (fun w =>
              render w = render (self (construct settings))
              /\ renderGroup w = renderGroup (self (construct settings))
              /\ emptyMsg w = emptyMsg (self (construct settings))
              /\ minLen w = minLen (self (construct settings))
              /\ showOnFocus w = showOnFocus (self (construct settings)))).
  - intros w H. unfold clear, detach.
    destruct (parentNode (container _)); exact H.
  - intros w H. unfold update, attach, appendChild, clear, detach.
    repeat match goal with
           | |- context [if ?c then _ else _] => destruct c
           end; exact H.
  - intros w H. rewrite selectPrev_frame.
    unfold update, attach, appendChild, clear, detach.
    repeat match goal with
           | |- context [if ?c then _ else _] => destruct c
           end; exact H.
  - intros w H. rewrite selectNext_frame.
    unfold update, attach, appendChild, clear, detach.
    repeat match goal with
           | |- context [if ?c then _ else _] => destruct c
           end; exact H.
  - intros i w H. exact H.
  - intros w H. exact H.
  - intros its txt w H.
    unfold update, attach, appendChild, clear, detach.
    repeat match goal with
           | |- context [if ?c then _ else _] => destruct c
           end; exact H.
  - repeat split; reflexivity.
Qed.

(** ** Listeners and dispatch *)

Ltac break_branches :=
  repeat match goal with
         | |- context [if ?c then _ else _] => destruct c
         | |- context [match ?x with Some _ => _ | None => _ end] =>
             destruct x
         end.

Lemma listeners_run_callback (heap : Heap) (cb : Callback) (event : DomEvent)
    (s : World) :
  listeners (run_callback heap cb event s) = listeners s.
Proof.
  destruct cb as [[]|h]; cbn [run_callback]; try reflexivity;
    unfold keydownEventHandler, keyupEventHandler, focusEventHandler,
      scrollEventHandler, startFetch;
    break_branches; reflexivity.
Qed.

Lemma listeners_dispatch (heap : Heap) (target : EventTarget) (type : string)
    (event : DomEvent) (s : World) :
  listeners (dispatch heap target type event s) = listeners s.
Proof.
  unfold dispatch. generalize (listeners s) at 1 as ls. intro ls. revert s.
  induction ls as [|l ls IH]; intro s; [reflexivity|].
  cbn [fold_left]. rewrite IH.
  destruct (EventTarget_eqb (l_target l) target && String.eqb (l_type l) type);
    [apply listeners_run_callback | reflexivity].
Qed.

Lemma listeners_step (heap : Heap) (s : World) (e : Event) :
  listeners s = constructor_listeners ->
  listeners (step heap s e) = constructor_listeners.
Proof.
  intro H. destruct e as [target type event|i|a|n r|n|]; cbn [step].
  - now rewrite listeners_dispatch.
  - exact H.
  - unfold blur_timeout. destruct (blurTimers s); break_branches; exact H.
  - unfold fetch_update. break_branches; exact H.
  - unfold click_listener. break_branches; exact H.
  - unfold destroy. cbn [listeners on_self set_listeners]. now rewrite H.
Qed.

(** Along every run of a constructed widget the listener lists hold the six
    listeners of the constructor. *)
Lemma listeners_reachable (heap : Heap) (settings : Settings.t)
    (es : list Event) :
  listeners (run heap (construct settings) es) = constructor_listeners.
Proof.
  unfold run.
  assert (H0 : listeners (construct settings) = constructor_listeners)
    by reflexivity.
  revert H0. generalize (construct settings) as s. intro s. revert s.
  induction es as [|e es IH]; intros s H; [exact H|].
  cbn [fold_left]. apply IH. now apply listeners_step.
Qed.

(** With the constructor's listeners in place, dispatching an event runs the
    one handler registered for it. *)
Lemma dispatch_handlers (heap : Heap) (event : DomEvent) (s : World) :
  listeners s = constructor_listeners ->
  dispatch heap TInput "keydown" event s = keydownEventHandler heap event s
  /\ dispatch heap TInput "keyup" event s = keyupEventHandler event s
  /\ dispatch heap TInput "blur" event s = blurEventHandler s
  /\ dispatch heap TInput "focus" event s = focusEventHandler s
  /\ dispatch heap TWindow "resize" event s = resizeEventHandler heap s
  /\ dispatch heap TDocument "scroll" event s
     = scrollEventHandler heap event s.
Proof.
  intro H. unfold dispatch. rewrite H. repeat split; reflexivity.
Qed.

(** ** States of a running widget *)

Lemma on_self_fixed (f : Dropcomplete -> Dropcomplete) (s : World) :
  f (self s) = self s -> on_self f s = s.
Proof. intro H. unfold on_self. rewrite H. now destruct s. Qed.

Lemma updateIfDisplayed_consistent (heap : Heap) (w : Dropcomplete) :
  overlay_consistent heap w -> updateIfDisplayed heap w = w.
Proof.
  intro Hc. unfold updateIfDisplayed, containerDisplayed.
  destruct (parentNode (container w)) eqn:Hp; cbn [negb]; [|reflexivity].
  now apply update_consistent.
Qed.

(** X6.  In every state that a constructed widget reaches, an item is
    selected exactly when [items] is not empty, and the selected item is one
    of the objects in [items]. *)
Theorem selection_iff_items_reachable (heap : Heap) (settings : Settings.t)
    (es : list Event) :
  let w := self (run heap (construct settings) es) in
  (selected w = None <-> items w = [])
  /\ (forall x, selected w = Some x -> In x (items w)).
Proof.
  cbn zeta.
  pose proof (selected_in_items_reachable heap settings es) as Hin.
  pose proof (selection_present_reachable heap settings es) as Hpres.
  unfold selected_in_items, selection_present in *.
  split; [split|].
  - intro Hnone. destruct (items _) eqn:E; [reflexivity|].
    exfalso. apply Hpres; [discriminate | exact Hnone].
  - intro Hempty. destruct (selected _) as [x|] eqn:E; [|reflexivity].
    rewrite Hempty in Hin. contradiction.
  - intros x Hx. now rewrite Hx in Hin.
Qed.

Lemma selection_iff_items_reachable_witness :
  let s :=
    run sample_heap (construct sample_settings)
      ([SetInput (mkInput "ab" (Some 2))] ++ press "b"
       ++ [FetchResult 0 (Some [1; 2; 3])] ++ press "ArrowDown") in
  selected (self s) = Some 2 /\ In 2 (items (self s)).
Proof.
  cbn zeta. split; [reflexivity|].
  apply (proj2 (selection_iff_items_reachable sample_heap sample_settings
                  ([SetInput (mkInput "ab" (Some 2))] ++ press "b"
                   ++ [FetchResult 0 (Some [1; 2; 3])]
                   ++ press "ArrowDown")) 2).
  reflexivity.
Defined.

(** X7.  In every state that a constructed widget reaches: while the
    overlay is detached, the widget holds no items, no input value and no
    selection; while it is attached, there are items or a truthy [emptyMsg],
    and the overlay's children are the rendering of the current [items] and
    [selected]. *)
Theorem overlay_states_reachable (heap : Heap) (settings : Settings.t)
    (es : list Event) :
  let w := self (run heap (construct settings) es) in
  (parentNode (container w) = false ->
   items w = [] /\ inputValue w = "" /\ selected w = None)
  /\ (parentNode (container w) = true ->
      (items w <> [] \/ truthy_string (Settings.emptyMsg settings) = true)
      /\ children (container w) = rendering heap w).
Proof.
  cbn zeta.
  pose proof (overlay_consistent_reachable heap settings es) as H.
  destruct (config_reachable heap settings es) as (_ & _ & Hm & _).
  cbn [emptyMsg self construct] in Hm.
  unfold overlay_consistent in H.
  destruct (parentNode (container _)); split; intro Hp;
    try discriminate; [rewrite <- Hm|]; exact H.
Qed.

Lemma overlay_states_reachable_witness :
  let s :=
    run sample_heap (construct sample_settings)
      ([SetInput (mkInput "ab" (Some 2))] ++ press "b"
       ++ [FetchResult 0 (Some [1; 2; 3])] ++ press "Escape") in
  items (self s) = [] /\ inputValue (self s) = "" /\ selected (self s) = None.
Proof.
  cbn zeta.
  apply (proj1 (overlay_states_reachable sample_heap sample_settings
                  ([SetInput (mkInput "ab" (Some 2))] ++ press "b"
                   ++ [FetchResult 0 (Some [1; 2; 3])] ++ press "Escape"))).
  reflexivity.
Defined.

(** X8.  In every state that a constructed widget reaches, a window resize
    and a document scroll, whether it comes from the overlay or from
    elsewhere, change nothing in the widget: the overlay's content, the
    items, the selection and the counter all stay as they are. *)
Theorem resize_scroll_change_nothing (heap : Heap) (settings : Settings.t)
    (es : list Event) (event : DomEvent) :
  let s := run heap (construct settings) es in
  dispatch heap TWindow "resize" event s = s
  /\ dispatch heap TDocument "scroll" event s = s.
Proof.
  cbn zeta. set (s := run heap (construct settings) es).
  pose proof (overlay_consistent_reachable heap settings es) as Hc.
  fold s in Hc.
  destruct (dispatch_handlers heap event s
              (listeners_reachable heap settings es))
    as (_ & _ & _ & _ & Hr & Hs).
  assert (Hu : on_self (updateIfDisplayed heap) s = s)
    by (apply on_self_fixed, updateIfDisplayed_consistent, Hc).
  rewrite Hr, Hs. unfold resizeEventHandler, scrollEventHandler.
  split; [exact Hu|].
  destruct (negb (targetIsContainer event)); [exact Hu | reflexivity].
Qed.

(** ** The counter as a cancellation token *)

Lemma fetch_update_stale (heap : Heap) (c : FetchCall) (r : option (list ref))
    (s : World) :
  keypressCounter (self s) <> savedKeypressCounter c ->
  fetch_update heap c r s = s.
Proof.
  intro Hne. unfold fetch_update. destruct r as [its|]; [|reflexivity].
  apply Z.eqb_neq in Hne. now rewrite Hne.
Qed.

Lemma epochs_bounded_reachable (heap : Heap) (settings : Settings.t)
    (es : list Event) :
  epochs_bounded (run heap (construct settings) es).
Proof. apply epochs_bounded_run, epochs_bounded_construct. Qed.

Lemma issued_epoch_bound (s : World) (c : FetchCall) :
  epochs_bounded s ->
  In c (fetchCalls s) ->
  (savedKeypressCounter c <= keypressCounter (self s))%Z.
Proof.
  intros Hinv Hin. destruct (In_nth_error _ _ Hin) as [n Hn].
  now destruct (Hinv n c Hn).
Qed.

Lemma counter_run (heap : Heap) (s : World) (es : list Event) :
  (keypressCounter (self s) <= keypressCounter (self (run heap s es)))%Z.
Proof.
  apply (run_invariant heap
           (fun w => (keypressCounter (self s) <= keypressCounter w)%Z)).
  - intros w H. rewrite counter_clear. lia.
  - intros w H. pose proof (counter_update heap w). lia.
  - intros w H. pose proof (counter_update heap (selectPrev w)) as Hu.
    rewrite counter_selectPrev in Hu. lia.
  - intros w H. pose proof (counter_update heap (selectNext w)) as Hu.
    rewrite counter_selectNext in Hu. lia.
  - intros i w H. exact H.
  - intros w H. cbn [keypressCounter set_keypressCounter]. lia.
  - intros its txt w H.
    match goal with |- (_ <= keypressCounter (update heap ?x))%Z =>
      pose proof (counter_update heap x) as Hu end.
    cbn [keypressCounter set_selected set_inputValue set_items] in Hu. lia.
  - lia.
Qed.

(** X9.  The counter never goes down: along every run, from any state, the
    value of [keypressCounter] at the end is at least its value at the
    start.  While the counter is a non-negative integer below 2^53, where
    the source's [++] is exact, every [startFetch] and every [clear] raises
    it strictly. *)
Theorem keypressCounter_monotone (heap : Heap) (s : World) (es : list Event) :
  (keypressCounter (self s) <= keypressCounter (self (run heap s es)))%Z
  /\ ((0 <= keypressCounter (self s) < 2 ^ 53)%Z ->
      (forall isFocus,
         keypressCounter (self s)
         < keypressCounter (self (startFetch isFocus s)))%Z
      /\ (keypressCounter (self s) < keypressCounter (clear (self s)))%Z).
Proof.
  split; [apply counter_run|]. intros _. split.
  - intro isFocus. unfold startFetch. break_branches;
      cbn [self call_fetch on_self keypressCounter set_keypressCounter];
      rewrite ?counter_clear;
      cbn [keypressCounter set_keypressCounter]; lia.
  - rewrite counter_clear. lia.
Qed.

Lemma keypressCounter_monotone_witness :
  (keypressCounter (self (construct sample_settings))
   < keypressCounter (self (startFetch false (construct sample_settings))))%Z.
Proof.
  apply (proj2 (keypressCounter_monotone sample_heap
                  (construct sample_settings) [])).
  cbn [keypressCounter self construct]. lia.
Defined.

(** X10.  Clearing cancels what is in flight: in every state that a
    constructed widget reaches, once the widget is cleared, by [clear]
    itself, by [destroy] or by the Escape key, completing any [fetch]
    invocation made before, with any result, changes nothing. *)
Theorem clear_cancels_pending (heap : Heap) (settings : Settings.t)
    (es : list Event) (c : FetchCall) (r : option (list ref)) :
  let s := run heap (construct settings) es in
  In c (fetchCalls s) ->
  fetch_update heap c r (on_self clear s) = on_self clear s
  /\ fetch_update heap c r (destroy s) = destroy s
  /\ fetch_update heap c r (keydownEventHandler heap (mkEvent "Escape" false) s)
     = keydownEventHandler heap (mkEvent "Escape" false) s.
Proof.
  cbn zeta. intro Hin.
  pose proof (issued_epoch_bound _ c
                (epochs_bounded_reachable heap settings es) Hin) as Hle.
  assert (H : fetch_update heap c r
                (on_self clear (run heap (construct settings) es))
              = on_self clear (run heap (construct settings) es)).
  { apply fetch_update_stale. cbn [self on_self]. rewrite counter_clear. lia. }
  split; [exact H|]. split; [|exact H].
  apply fetch_update_stale. unfold destroy. cbn [self on_self set_listeners].
  rewrite counter_clear. lia.
Qed.

Lemma clear_cancels_pending_witness :
  let s :=
    run sample_heap (construct sample_settings)
      ([SetInput (mkInput "ab" (Some 2))] ++ press "b") in
  fetch_update sample_heap (mkFetchCall "ab" 1 false 2) (Some [1; 2])
    (on_self clear s)
  = on_self clear s.
Proof.
  cbn zeta.
  apply (proj1 (clear_cancels_pending sample_heap sample_settings
                  ([SetInput (mkInput "ab" (Some 2))] ++ press "b")
                  (mkFetchCall "ab" 1 false 2) (Some [1; 2])
                  (or_introl eq_refl))).
Defined.

(** X11.  A focus event fetches when [showOnFocus] is true, whatever the
    length of the text and whatever [minLen] is: [fetch] is invoked once,
    with the text, the focus flag set and the cursor position, and only the
    counter changes.  When [showOnFocus] is absent or false the focus event
    changes nothing. *)
Theorem focus_fetches_iff_showOnFocus (s : World) :
  (showOnFocus (self s) = Some true ->
   fetchCalls (focusEventHandler s)
   = fetchCalls s
     ++ [mkFetchCall (value (input (self s))) (keypressCounter (self s) + 1)
           true
           (match selectionStart (input (self s)) with
            | Some n => n
            | None => 0
            end)]
   /\ self (focusEventHandler s)
      = set_keypressCounter (keypressCounter (self s) + 1) (self s))
  /\ (showOnFocus (self s) <> Some true -> focusEventHandler s = s).
Proof.
  unfold focusEventHandler. split.
  - intro H. rewrite H. unfold startFetch.
    cbn [self on_self input minLen set_keypressCounter keypressCounter].
    rewrite orb_true_r. split; reflexivity.
  - intro H. destruct (showOnFocus (self s)) as [[|]|];
      [congruence | reflexivity | reflexivity].
Qed.

Lemma focus_fetches_iff_showOnFocus_witness :
  fetchCalls
    (focusEventHandler
       (construct (Settings.mk (mkInput "" None) (Some 5%Z) None (Some true)
                     None)))
  = [mkFetchCall "" 1 true 0]
  /\ focusEventHandler (construct sample_settings) = construct sample_settings.
Proof.
  split.
  - apply (proj1 (focus_fetches_iff_showOnFocus
                    (construct (Settings.mk (mkInput "" None) (Some 5%Z) None
                                  (Some true) None)))).
    reflexivity.
  - apply (proj2 (focus_fetches_iff_showOnFocus (construct sample_settings))).
    discriminate.
Defined.

(** ** Keys *)

Lemma inputValue_selectPrev (w : Dropcomplete) :
  inputValue (selectPrev w) = inputValue w.
Proof. now rewrite selectPrev_frame. Qed.

Lemma inputValue_selectNext (w : Dropcomplete) :
  inputValue (selectNext w) = inputValue w.
Proof. now rewrite selectNext_frame. Qed.

Lemma container_selectPrev (w : Dropcomplete) :
  container (selectPrev w) = container w.
Proof. now rewrite selectPrev_frame. Qed.

Lemma container_selectNext (w : Dropcomplete) :
  container (selectNext w) = container w.
Proof. now rewrite selectNext_frame. Qed.

(** What the keydown handler does with the two arrow keys. *)
Lemma keydown_arrow (heap : Heap) (event : DomEvent) (s : World) :
  key event = "ArrowUp" \/ key event = "ArrowDown" ->
  keydownEventHandler heap event s
  = if negb (containerDisplayed (self s))
       || (Z.of_nat (List.length (items (self s))) <? 1)%Z
    then s
    else on_self
           (fun w =>
              update heap
                (if String.eqb (key event) "ArrowUp" then selectPrev w
                 else selectNext w)) s.
Proof.
  intro H. unfold keydownEventHandler.
  destruct H as [H|H]; rewrite H; cbn [String.eqb Ascii.eqb Bool.eqb orb];
    destruct (negb (containerDisplayed (self s))
              || (Z.of_nat (List.length (items (self s))) <? 1)%Z);
    reflexivity.
Qed.

(** X12.  The arrow keys only move the selection.  Whatever the state, the
    keydown of ArrowUp or ArrowDown invokes neither [fetch] nor [onSelect],
    leaves [items], [inputValue] and the counter as they are, so that a fetch
    in flight stays valid, and neither attaches nor detaches the overlay.
    With the overlay attached and items present the selection becomes that
    of [selectPrev], respectively [selectNext]; otherwise nothing changes at
    all. *)
Theorem arrow_keys_only_move_selection (heap : Heap) (event : DomEvent)
    (s : World) :
  key event = "ArrowUp" \/ key event = "ArrowDown" ->
  let s' := keydownEventHandler heap event s in
  fetchCalls s' = fetchCalls s
  /\ onSelectCalls s' = onSelectCalls s
  /\ items (self s') = items (self s)
  /\ inputValue (self s') = inputValue (self s)
  /\ keypressCounter (self s') = keypressCounter (self s)
  /\ parentNode (container (self s')) = parentNode (container (self s))
  /\ (parentNode (container (self s)) = true ->
      items (self s) <> [] ->
      selected (self s')
      = selected (if String.eqb (key event) "ArrowUp"
                  then selectPrev (self s) else selectNext (self s)))
  /\ (parentNode (container (self s)) = false \/ items (self s) = [] ->
      s' = s).
Proof.
  intro Hk. cbn zeta. rewrite (keydown_arrow heap event s Hk).
  unfold containerDisplayed.
  destruct (parentNode (container (self s))) eqn:Hp; cbn [negb orb].
  2:{ repeat split; intros; try reflexivity; congruence. }
  destruct (Z.of_nat (List.length (items (self s))) <? 1)%Z eqn:Hlen.
  { apply length_lt_1 in Hlen.
    repeat split; intros; try reflexivity; congruence. }
  apply length_ge_1 in Hlen. cbn [self on_self fetchCalls onSelectCalls].
  set (w' := if String.eqb (key event) "ArrowUp"
             then selectPrev (self s) else selectNext (self s)).
  assert (Hf : items w' = items (self s)
               /\ inputValue w' = inputValue (self s)
               /\ keypressCounter w' = keypressCounter (self s)
               /\ container w' = container (self s)).
  { unfold w'. destruct (String.eqb (key event) "ArrowUp").
    - now rewrite items_selectPrev, inputValue_selectPrev,
        counter_selectPrev, container_selectPrev.
    - now rewrite items_selectNext, inputValue_selectNext,
        counter_selectNext, container_selectNext. }
  destruct Hf as (Hi & Hv & Hc & Hcont).
  rewrite update_shows by (left; now rewrite Hi).
  cbn [items inputValue keypressCounter container selected set_container
       parentNode].
  repeat split; try assumption; try reflexivity.
  intros [C|C]; [discriminate | congruence].
Qed.

Lemma arrow_keys_only_move_selection_witness :
  let s :=
    run sample_heap (construct sample_settings)
      ([SetInput (mkInput "ab" (Some 2))] ++ press "b"
       ++ [FetchResult 0 (Some [1; 2; 3])]) in
  keypressCounter
    (self (keydownEventHandler sample_heap (mkEvent "ArrowDown" false) s))
  = keypressCounter (self s).
Proof.
  cbn zeta.
  apply (arrow_keys_only_move_selection sample_heap
           (mkEvent "ArrowDown" false)).
  right. reflexivity.
Defined.

(** X13.  The Enter key, in every state that a constructed widget reaches:
    with no items it changes nothing; with items it invokes [onSelect] once,
    with the selected item, which is one of the items, and then clears the
    widget. *)
Theorem enter_selects_reachable (heap : Heap) (settings : Settings.t)
    (es : list Event) :
  let s := run heap (construct settings) es in
  let s' := keydownEventHandler heap (mkEvent "Enter" false) s in
  (items (self s) = [] -> s' = s)
  /\ (items (self s) <> [] ->
      exists x,
        selected (self s) = Some x
        /\ In x (items (self s))
        /\ s' = on_self clear (call_onSelect x s)).
Proof.
  cbn zeta. set (s := run heap (construct settings) es).
  pose proof (selected_in_items_reachable heap settings es) as Hin.
  pose proof (selection_present_reachable heap settings es) as Hpres.
  fold s in Hin, Hpres. unfold selected_in_items, selection_present in *.
  assert (E : keydownEventHandler heap (mkEvent "Enter" false) s
              = match selected (self s) with
                | Some item => on_self clear (call_onSelect item s)
                | None => s
                end) by reflexivity.
  rewrite E. split.
  - intro Hempty. destruct (selected (self s)) as [x|]; [|reflexivity].
    rewrite Hempty in Hin. contradiction.
  - intro Hne. destruct (selected (self s)) as [x|].
    + exists x. repeat split; [exact Hin].
    + exfalso. now apply Hpres.
Qed.

Lemma enter_selects_reachable_witness :
  let s :=
    run sample_heap (construct sample_settings)
      ([SetInput (mkInput "ab" (Some 2))] ++ press "b"
       ++ [FetchResult 0 (Some [1; 2; 3])]) in
  exists x,
    selected (self s) = Some x
    /\ In x (items (self s))
    /\ keydownEventHandler sample_heap (mkEvent "Enter" false) s
       = on_self clear (call_onSelect x s).
Proof.
  cbn zeta.
  apply (proj2 (enter_selects_reachable sample_heap sample_settings
                  ([SetInput (mkInput "ab" (Some 2))] ++ press "b"
                   ++ [FetchResult 0 (Some [1; 2; 3])]))).
  discriminate.
Defined.

Lemma run_press (heap : Heap) (k : string) (s : World) :
  listeners s = constructor_listeners ->
  run heap s (press k)
  = keyupEventHandler (mkEvent k false)
      (keydownEventHandler heap (mkEvent k false) s).
Proof.
  intro H. unfold run, press. cbn [fold_left step].
  destruct (dispatch_handlers heap (mkEvent k false) s H) as (Hd & _).
  rewrite Hd.
  assert (H' : listeners (keydownEventHandler heap (mkEvent k false) s)
               = constructor_listeners).
  { rewrite <- Hd. now rewrite listeners_dispatch. }
  destruct (dispatch_handlers heap (mkEvent k false) _ H') as (_ & Hu & _).
  exact Hu.
Qed.

Lemma not_ignored (k : string) :
  ~ In k ignores ->
  existsb (fun ignore => String.eqb ignore k) ignores = false.
Proof.
  intro H. destruct (existsb _ ignores) eqn:E; [|reflexivity].
  apply existsb_exists in E. destruct E as [x [Hin Heq]].
  apply String.eqb_eq in Heq. subst. contradiction.
Qed.

(** X14.  Pressing and releasing a key that is not in the list of ignored
    keys, and is neither "Fn" nor "ArrowDown", on a widget with the
    constructor's listeners in place, does exactly one [startFetch(false)]:
    the keydown changes nothing and the keyup starts the fetch. *)
Theorem press_character_starts_fetch (heap : Heap) (k : string) (s : World) :
  listeners s = constructor_listeners ->
  ~ In k ignores ->
  k <> "Fn" ->
  k <> "ArrowDown" ->
  run heap s (press k) = startFetch false s.
Proof.
  intros Hl Hi Hfn Hdown. rewrite run_press by exact Hl.
  assert (Hkd : keydownEventHandler heap (mkEvent k false) s = s).
  { unfold keydownEventHandler. cbn [key].
    assert (Hup : String.eqb k "ArrowUp" = false)
      by (apply String.eqb_neq; intro C; apply Hi; rewrite C; simpl; auto).
    assert (Hesc : String.eqb k "Escape" = false)
      by (apply String.eqb_neq; intro C; apply Hi; rewrite C; simpl; auto).
    assert (Hent : String.eqb k "Enter" = false)
      by (apply String.eqb_neq; intro C; apply Hi; rewrite C; simpl; auto).
    apply String.eqb_neq in Hdown.
    now rewrite Hup, Hdown, Hesc, Hent. }
  rewrite Hkd. unfold keyupEventHandler. cbn [key].
  rewrite (not_ignored k Hi).
  apply String.eqb_neq in Hfn, Hdown. now rewrite Hfn, Hdown.
Qed.

Lemma press_character_starts_fetch_witness :
  run sample_heap (construct sample_settings) (press "a")
  = startFetch false (construct sample_settings).
Proof.
  apply (press_character_starts_fetch sample_heap "a"
           (construct sample_settings)).
  - reflexivity.
  - simpl. intuition discriminate.
  - discriminate.
  - discriminate.
Defined.

(** X15.  Pressing and releasing Escape, on a widget with the constructor's
    listeners in place, clears the widget and does nothing else: the keyup
    of Escape is ignored, so no fetch is started and the overlay stays
    closed. *)
Theorem press_escape_clears (heap : Heap) (s : World) :
  listeners s = constructor_listeners ->
  run heap s (press "Escape") = on_self clear s
  /\ fetchCalls (run heap s (press "Escape")) = fetchCalls s
  /\ parentNode (container (self (run heap s (press "Escape")))) = false.
Proof.
  intro Hl. rewrite run_press by exact Hl.
  assert (E : keyupEventHandler (mkEvent "Escape" false)
                (keydownEventHandler heap (mkEvent "Escape" false) s)
              = on_self clear s) by reflexivity.
  rewrite E. split; [reflexivity|]. split; [reflexivity|].
  cbn [self on_self].
  now destruct (clear_fields (self s)) as (_ & _ & _ & _ & H & _).
Qed.

Lemma press_escape_clears_witness :
  let s :=
    run sample_heap (construct sample_settings)
      ([SetInput (mkInput "ab" (Some 2))] ++ press "b"
       ++ [FetchResult 0 (Some [1; 2; 3])]) in
  run sample_heap s (press "Escape") = on_self clear s.
Proof.
  cbn zeta.
  apply (press_escape_clears sample_heap). reflexivity.
Defined.

(** X16.  Pressing and releasing ArrowDown, on a widget with the
    constructor's listeners in place.  With the overlay detached, the
    keydown changes nothing and the keyup starts a fetch: the key opens the
    overlay.  With the overlay attached and items present, the keydown moves
    the selection and re-renders, and the keyup is ignored, so no fetch is
    started. *)
Theorem press_arrow_down (heap : Heap) (s : World) :
  listeners s = constructor_listeners ->
  (parentNode (container (self s)) = false ->
   run heap s (press "ArrowDown") = startFetch false s)
  /\ (parentNode (container (self s)) = true ->
      items (self s) <> [] ->
      run heap s (press "ArrowDown")
      = on_self (fun w => update heap (selectNext w)) s
      /\ fetchCalls (run heap s (press "ArrowDown")) = fetchCalls s).
Proof.
  intro Hl. rewrite run_press by exact Hl.
  rewrite (keydown_arrow heap (mkEvent "ArrowDown" false) s)
    by (right; reflexivity).
  unfold containerDisplayed. split.
  - intro Hp. rewrite Hp. cbn [negb orb].
    unfold keyupEventHandler, containerDisplayed. rewrite Hp. reflexivity.
  - intros Hp Hne. rewrite Hp. apply length_ge_1 in Hne as Hlen.
    rewrite Hlen. cbn [negb orb key String.eqb Ascii.eqb Bool.eqb].
    assert (Hd : parentNode
                   (container (update heap (selectNext (self s)))) = true).
    { rewrite update_shows by (left; now rewrite items_selectNext).
      reflexivity. }
    unfold keyupEventHandler, containerDisplayed.
    cbn [key self on_self]. rewrite Hd. split; reflexivity.
Qed.

Lemma press_arrow_down_witness :
  run sample_heap
    (on_self (set_input (mkInput "ab" (Some 2))) (construct sample_settings))
    (press "ArrowDown")
  = startFetch false
      (on_self (set_input (mkInput "ab" (Some 2)))
         (construct sample_settings)).
Proof.
  apply (proj1 (press_arrow_down sample_heap
                  (on_self (set_input (mkInput "ab" (Some 2)))
                     (construct sample_settings))
                  eq_refl)).
  reflexivity.
Defined.

(** ** Blur *)

(** X17.  A blur alone changes nothing in the widget: it only schedules a
    callback.  When that callback runs and the input is no longer the active
    element, the widget is cleared; when the focus is back on the input, the
    widget is exactly as it was before the blur. *)
Theorem blur_then_timeout (s : World) :
  self (blurEventHandler s) = self s
  /\ fetchCalls (blurEventHandler s) = fetchCalls s
  /\ onSelectCalls (blurEventHandler s) = onSelectCalls s
  /\ blur_timeout false (blurEventHandler s) = on_self clear s
  /\ blur_timeout true (blurEventHandler s) = s.
Proof. destruct s. repeat split; reflexivity. Qed.

(** ** Completing a fetch twice *)

Lemma adopt_same (its : list ref) (txt : string) (sel : option ref)
    (w : Dropcomplete) :
  items w = its -> inputValue w = txt -> selected w = sel ->
  set_selected sel (set_inputValue txt (set_items its w)) = w.
Proof. intros <- <- <-. now destruct w. Qed.

(** X18.  Under the renderers of the class, which build a new node on every
    call, completing the same [fetch] invocation twice in a row with the same
    result leaves the widget as the first completion left it.  An
    overriding renderer that hands back a node it returned before is not
    covered. *)
Theorem fetch_update_idempotent (heap : Heap) (c : FetchCall)
    (r : option (list ref)) (s : World) :
  render (self s) = default_render ->
  renderGroup (self s) = default_renderGroup ->
  fetch_update heap c r (fetch_update heap c r s) = fetch_update heap c r s.
Proof.
  intros _ _.
  destruct r as [its|]; [|reflexivity].
  destruct (keypressCounter (self s) =? savedKeypressCounter c)%Z eqn:Heq.
  2:{ unfold fetch_update. now rewrite Heq, Heq. }
  set (sel := if (Z.of_nat (List.length its) <? 1)%Z then None
              else item_at its 0).
  set (p := set_selected sel (set_inputValue (text c) (set_items its (self s)))).
  assert (E : fetch_update heap c (Some its) s
              = on_self (fun _ => update heap p) s)
    by (unfold fetch_update; now rewrite Heq).
  rewrite E. apply Z.eqb_eq in Heq.
  destruct (update_cases heap p) as [Hshow|[Hi Ht]].
  - assert (Hu : update heap p
                 = set_container (mkContainer (rendering heap p) true) p)
      by now apply update_shows.
    unfold fetch_update. cbn [self on_self]. rewrite Hu at 1.
    cbn [keypressCounter set_container].
    assert (Hk : (keypressCounter p =? savedKeypressCounter c)%Z = true)
      by (apply Z.eqb_eq; exact Heq).
    rewrite Hk.
    assert (Hfix : update heap
                     (set_selected sel
                        (set_inputValue (text c)
                           (set_items its (update heap p))))
                   = update heap p).
    { rewrite adopt_same; try (rewrite Hu; reflexivity).
      apply update_consistent; [apply overlay_consistent_update|].
      now rewrite Hu. }
    unfold on_self. cbn [self listeners fetchCalls onSelectCalls blurTimers].
    fold sel. now rewrite Hfix.
  - apply fetch_update_stale. cbn [self on_self].
    rewrite update_clears by assumption. rewrite counter_clear.
    cbn [keypressCounter set_container].
    change (keypressCounter p) with (keypressCounter (self s)). lia.
Qed.

Lemma fetch_update_idempotent_witness :
  let s :=
    run sample_heap (construct sample_settings)
      ([SetInput (mkInput "ab" (Some 2))] ++ press "b") in
  let c := mkFetchCall "ab" 1 false 2 in
  fetch_update sample_heap c (Some [1; 2])
    (fetch_update sample_heap c (Some [1; 2]) s)
  = fetch_update sample_heap c (Some [1; 2]) s.
Proof.
  cbn zeta.
  apply (fetch_update_idempotent sample_heap (mkFetchCall "ab" 1 false 2)
           (Some [1; 2])
           (run sample_heap (construct sample_settings)
              ([SetInput (mkInput "ab" (Some 2))] ++ press "b"))).
  - reflexivity.
  - reflexivity.
Defined.

(** ** The highlighted element *)

Lemma filter_same_ref_NoDup (l : list ref) (x : ref) :
  NoDup l -> In x l ->
  filter (fun item => same_ref (Some item) (Some x)) l = [x].
Proof.
  intros Hnd. induction Hnd as [|a l Ha Hnd IH]; intro Hin; [inversion Hin|].
  cbn [filter same_ref]. destruct (Nat.eqb_spec a x) as [E|E].
  - subst a. f_equal.
    clear IH Hin. induction l as [|b l IHl]; [reflexivity|].
    cbn [filter same_ref].
    destruct (Nat.eqb_spec b x) as [E|E].
    + subst b. exfalso. apply Ha. now left.
    + apply IHl.
      * intro C. apply Ha. now right.
      * now inversion Hnd.
  - apply IH. destruct Hin as [C|C]; [congruence | exact C].
Qed.

Lemma selected_class_update_loop (heap : Heap) (w : Dropcomplete)
    (its : list ref) (p : string) :
  render w = default_render ->
  renderGroup w = default_renderGroup ->
  map click (filter (has_class "selected") (update_loop heap w its p))
  = map Some (filter (fun item => same_ref (Some item) (selected w)) its).
Proof.
  intros Hr Hg. revert p. induction its as [|item its IH]; intro p;
    [reflexivity|].
  cbn [update_loop filter]. rewrite Hr, Hg.
  unfold default_render, default_renderGroup.
  rewrite !filter_app, !map_app, IH.
  destruct (truthy_string (group (heap item))
            && negb (String.eqb (or_empty (group (heap item))) p));
    destruct (same_ref (Some item) (selected w)); reflexivity.
Qed.

(** X19.  Under the default renderers, the elements that [update] leaves
    with the class "selected" are the elements of the items that are the
    selected object, in order.  So when the list has no repeated object and
    one of its items is selected, exactly one element is highlighted, and it
    is the element of the selected item. *)
Theorem update_highlights_selected (heap : Heap) (w : Dropcomplete) :
  render w = default_render ->
  renderGroup w = default_renderGroup ->
  map click
    (filter (has_class "selected") (children (container (update heap w))))
  = map Some (filter (fun item => same_ref (Some item) (selected w)) (items w))
  /\ (forall x,
        NoDup (items w) -> In x (items w) -> selected w = Some x ->
        map click
          (filter (has_class "selected")
             (children (container (update heap w))))
        = [Some x]).
Proof.
  intros Hr Hg.
  assert (H : map click
                (filter (has_class "selected")
                   (children (container (update heap w))))
              = map Some
                  (filter (fun item => same_ref (Some item) (selected w))
                     (items w))).
  { rewrite update_children, filter_app, map_app.
    rewrite selected_class_update_loop by assumption.
    destruct ((Z.of_nat (List.length (items w)) <? 1)%Z
              && truthy_string (emptyMsg w)); cbn; apply app_nil_r. }
  split; [exact H|].
  intros x Hnd Hin Hsel. rewrite H, Hsel.
  now rewrite filter_same_ref_NoDup.
Qed.

Lemma update_highlights_selected_witness :
  map click
    (filter (has_class "selected")
       (children
          (container (update sample_heap (sample_widget [1; 2; 3] (Some 2))))))
  = [Some 2].
Proof.
  apply (proj2 (update_highlights_selected sample_heap
                  (sample_widget [1; 2; 3] (Some 2)) eq_refl eq_refl) 2).
  - simpl. repeat constructor; simpl; intuition discriminate.
  - simpl. auto.
  - reflexivity.
Defined.

(** ** Clicks *)

Lemma clicks_of_update_loop (heap : Heap) (w : Dropcomplete) (its : list ref)
    (p : string) (item : ref) :
  render w = default_render ->
  renderGroup w = default_renderGroup ->
  (exists el, In el (update_loop heap w its p) /\ click el = Some item)
  <-> In item its.
Proof.
  intros Hr Hg.
  assert (Hc : map click (filter clickable (update_loop heap w its p))
               = map Some its).
  { pose proof (clickable_update_loop heap w its p Hr Hg) as H0.
    apply (f_equal (map fst)) in H0. rewrite !map_map in H0. exact H0. }
  split.
  - intros [el [Hin Hcl]].
    assert (Hm : In (Some item)
                   (map click (filter clickable (update_loop heap w its p)))).
    { rewrite <- Hcl. apply in_map, filter_In. split; [exact Hin|].
      unfold clickable. now rewrite Hcl. }
    rewrite Hc in Hm. apply in_map_iff in Hm.
    destruct Hm as [y [Hy Hyin]]. now injection Hy as <-.
  - intro Hin.
    assert (Hm : In (Some item) (map Some its)) by now apply in_map.
    rewrite <- Hc in Hm. apply in_map_iff in Hm.
    destruct Hm as [el [Hcl Hel]]. apply filter_In in Hel.
    exists el. split; [apply Hel | exact Hcl].
Qed.

(** X20.  In every state that a constructed widget reaches with the overlay
    attached, the elements that carry a click listener are the elements of
    the current items: a click on such an element invokes [onSelect] once,
    with an item that is in [items], and then clears the widget, and every
    item in [items] has such an element. *)
Theorem click_selects_shown_item (heap : Heap) (settings : Settings.t)
    (es : list Event) :
  let s := run heap (construct settings) es in
  parentNode (container (self s)) = true ->
  (forall n el item,
     nth_error (children (container (self s))) n = Some el ->
     click el = Some item ->
     In item (items (self s))
     /\ step heap s (Click n) = on_self clear (call_onSelect item s))
  /\ (forall item,
        In item (items (self s)) ->
        exists n el,
          nth_error (children (container (self s))) n = Some el
          /\ click el = Some item).
Proof.
  cbn zeta. set (s := run heap (construct settings) es). intro Hp.
  pose proof (overlay_consistent_reachable heap settings es) as Hc.
  destruct (config_reachable heap settings es) as (Hr & Hg & _).
  fold s in Hc, Hr, Hg. cbn [render renderGroup self construct] in Hr, Hg.
  unfold overlay_consistent in Hc. rewrite Hp in Hc.
  destruct Hc as [_ Hch]. unfold rendering in Hch.
  split.
  - intros n el item Hn Hcl. split.
    + apply (clicks_of_update_loop heap (self s) (items (self s)) "#9?$" item
               Hr Hg).
      exists el. split; [|exact Hcl].
      apply nth_error_In in Hn. rewrite Hch in Hn.
      apply in_app_or in Hn. destruct Hn as [Hn|Hn]; [exact Hn|].
      destruct ((Z.of_nat (List.length (items (self s))) <? 1)%Z
                && truthy_string (emptyMsg (self s))).
      * destruct Hn as [Hn|[]]. subst el. discriminate Hcl.
      * destruct Hn.
    + cbn [step]. now rewrite Hn, Hcl.
  - intros item Hin.
    apply (clicks_of_update_loop heap (self s) (items (self s)) "#9?$" item
             Hr Hg) in Hin.
    destruct Hin as [el [Hel Hcl]].
    assert (Hin' : In el (children (container (self s))))
      by (rewrite Hch; apply in_or_app; now left).
    destruct (In_nth_error _ _ Hin') as [n Hn].
    exists n, el. split; assumption.
Qed.

Lemma click_selects_shown_item_witness :
  let s :=
    run sample_heap (construct sample_settings)
      ([SetInput (mkInput "ab" (Some 2))] ++ press "b"
       ++ [FetchResult 0 (Some [1; 2; 3])]) in
  exists n el,
    nth_error (children (container (self s))) n = Some el
    /\ click el = Some 3.
Proof.
  cbn zeta.
  apply (proj2 (click_selects_shown_item sample_heap sample_settings
                  ([SetInput (mkInput "ab" (Some 2))] ++ press "b"
                   ++ [FetchResult 0 (Some [1; 2; 3])])
                  eq_refl) 3).
  simpl. auto.
Defined.

(** ** What a completion shows *)



(** ** Clearing what is already clear *)

(** X22.  [clear] always leaves the widget with no items, no input value, no
    selection and a detached overlay.  Applied to a widget it has just
    cleared, it changes nothing but the counter, which has then moved by
    two; so a second [destroy] differs from the first only in the counter.
    The two increments are stated for a counter that is a non-negative
    integer at most 2^53 - 2, where the source's [++] is exact. *)
Theorem clear_twice (s : World) :
  (0 <= keypressCounter (self s))%Z ->
  (keypressCounter (self s) + 2 <= 2 ^ 53)%Z ->
  items (clear (self s)) = []
  /\ inputValue (clear (self s)) = ""
  /\ selected (clear (self s)) = None
  /\ parentNode (container (clear (self s))) = false
  /\ clear (clear (self s))
     = set_keypressCounter (keypressCounter (self s) + 2) (clear (self s))
  /\ self (destroy (destroy s))
     = set_keypressCounter (keypressCounter (self s) + 2) (self (destroy s)).
Proof.
  intros _ _.
  assert (H : clear (clear (self s))
              = set_keypressCounter (keypressCounter (self s) + 2)
                  (clear (self s))).
  { unfold clear, detach.
    destruct (self s) as [? ? ? ? ? ? ? [ch []] ? ? ? k]; cbn;
      (replace (k + 1 + 1)%Z with (k + 2)%Z by lia); reflexivity. }
  destruct (clear_fields (self s)) as (H1 & H2 & H3 & _ & H5 & _).
  repeat split; try assumption.
Qed.

Lemma clear_twice_witness :
  keypressCounter (self (destroy (destroy (construct sample_settings)))) = 2%Z.
Proof.
  destruct (clear_twice (construct sample_settings))
    as (_ & _ & _ & _ & _ & H).
  - cbn [keypressCounter self construct]. lia.
  - cbn [keypressCounter self construct]. lia.
  - rewrite H. reflexivity.
Defined.
